(** * Dependency-graph tool for APK packages: a shallow embedding of [main.py]

    The development follows the stages of the program: the dependency source
    (index parsing, fixture file, cached fetch), the recursive graph builder,
    the reverse-dependency scan, and the breadth-first layering used by the
    diagram emitter. *)

From Stdlib Require Import Ascii String.
From stdpp Require Import base option list strings gmap sets sorting relations.

Local Open Scope string_scope.
Local Open Scope list_scope.
Local Open Scope nat_scope.

#[local] Set Warnings "-clear-no-such-hyp".

(** ** Insertion-ordered dictionaries

    A Python [dict] keeps its keys in insertion order; assigning to a key
    that is already present replaces the value and keeps the position. *)

Module Dict.

Abbreviation t V := (list (string * V)%type).

Definition empty {V} : t V := [].

Fixpoint get {V} (d : t V) (k : string) : option V :=
  match d with
  | [] => None
  | (k', v) :: d' => if decide (k' = k) then Some v else get d' k
  end.

(** [d[k] = v] *)
Fixpoint set {V} (k : string) (v : V) (d : t V) : t V :=
  match d with
  | [] => [(k, v)]
  | (k', v') :: d' =>
      if decide (k' = k) then (k, v) :: d' else (k', v') :: set k v d'
  end.

Definition keys {V} (d : t V) : list string := d.*1.

Definition mem {V} (d : t V) (k : string) : bool := bool_decide (k ∈ keys d).

(** What distinguishes a dictionary from an arbitrary list of pairs. *)
Definition wf {V} (d : t V) : Prop := NoDup (keys d).

End Dict.

Abbreviation Graph := (Dict.t (list string)).

(** ** Text helpers used by the two dependency sources

    Texts are byte strings; the character classes below are the ASCII part
    of Python's classes, which is what package indexes contain. On a text
    with a character above 127 Python's [\w] and [str.strip] accept more
    than these classes do (letters and blanks outside ASCII), so a result
    that needs a class to be exactly Python's is stated for texts that
    satisfy [isascii]. *)

Module Text.

Definition code (c : ascii) : nat := nat_of_ascii c.

Definition in_range (lo hi : nat) (c : ascii) : bool :=
  (lo <=? code c)%nat && (code c <=? hi)%nat.

(** [\w] *)
Definition is_word (c : ascii) : bool :=
  in_range 48 57 c || in_range 65 90 c || in_range 97 122 c
  || bool_decide (c = "_"%char).

(** [[\w\.\-]] *)
Definition is_name_char (c : ascii) : bool :=
  is_word c || bool_decide (c = "."%char) || bool_decide (c = "-"%char).

(** [[=<>!]] *)
Definition is_op_char (c : ascii) : bool :=
  bool_decide (c = "="%char) || bool_decide (c = "<"%char)
  || bool_decide (c = ">"%char) || bool_decide (c = "!"%char).

(** [str.isspace] on ASCII: tab .. carriage return, the four separators
    and the blank. *)
Definition is_space (c : ascii) : bool :=
  in_range 9 13 c || in_range 28 31 c || bool_decide (c = " "%char).

Definition nonempty (s : string) : bool :=
  match s with EmptyString => false | _ => true end.

Fixpoint drop (n : nat) (s : string) : string :=
  match n, s with
  | S n', String _ s' => drop n' s'
  | _, _ => s
  end.

Fixpoint lstrip (s : string) : string :=
  match s with
  | String c s' => if is_space c then lstrip s' else s
  | EmptyString => EmptyString
  end.

Fixpoint rstrip (s : string) : string :=
  match s with
  | String c s' =>
      match rstrip s' with
      | EmptyString => if is_space c then EmptyString else String c EmptyString
      | r => String c r
      end
  | EmptyString => EmptyString
  end.

(** [s.strip()] *)
Definition strip (s : string) : string := rstrip (lstrip s).

(** [s.split(sep)] for a one-character separator: never empty. *)
Fixpoint split (sep : ascii) (s : string) : list string :=
  match s with
  | EmptyString => [EmptyString]
  | String c s' =>
      if decide (c = sep) then EmptyString :: split sep s'
      else match split sep s' with
           | w :: ws => String c w :: ws
           | [] => [String c EmptyString]
           end
  end.

(** [sep in s] *)
Fixpoint contains (sep : ascii) (s : string) : bool :=
  match s with
  | EmptyString => false
  | String c s' => bool_decide (c = sep) || contains sep s'
  end.

(** [s.split(sep, 1)] when [sep in s]: the text before the first
    separator and the text after it. *)
Fixpoint split_once (sep : ascii) (s : string) : string * string :=
  match s with
  | EmptyString => (EmptyString, EmptyString)
  | String c s' =>
      if decide (c = sep) then (EmptyString, s')
      else let '(a, b) := split_once sep s' in (String c a, b)
  end.

(** [s.startswith(p)] *)
Definition startswith (p s : string) : bool := String.prefix p s.

(** [s.isascii()]: every character is below 128. *)
Fixpoint isascii (s : string) : bool :=
  match s with
  | EmptyString => true
  | String c s' => (code c <? 128)%nat && isascii s'
  end.

End Text.

(** ** The pattern [([\w\.\-]+)(?:[=<>!].*?)?] and [re.findall] *)

Module Regex.
Import Text.

(** The greedy run [[\w\.\-]*] at the start of [s], and what follows. *)
Fixpoint span_name (s : string) : string * string :=
  match s with
  | String c s' =>
      if is_name_char c
      then let '(n, r) := span_name s' in (String c n, r)
      else (EmptyString, s)
  | EmptyString => (EmptyString, EmptyString)
  end.

(** The optional group [(?:[=<>!].*?)?]: the option is greedy, so an
    operator character is consumed when there is one; the lazy [.*?]
    that ends the pattern then matches the empty text. *)
Definition skip_qualifier (s : string) : string :=
  match s with
  | String c s' => if is_op_char c then s' else s
  | EmptyString => s
  end.

(** A match of the whole pattern at the start of [s]: group 1 and the
    text after the match. *)
Definition match_at (s : string) : option (string * string) :=
  let '(name, rest) := span_name s in
  if nonempty name then Some (name, skip_qualifier rest) else None.

(** Leftmost matches, none overlapping; the fuel counts characters. *)
Fixpoint findall_from (fuel : nat) (s : string) : list string :=
  match fuel with
  | O => []
  | S fuel' =>
      match s with
      | EmptyString => []
      | String _ s' =>
          match match_at s with
          | Some (g, rest) => g :: findall_from fuel' rest
          | None => findall_from fuel' s'
          end
      end
  end.

(** [re.findall(r'([\w\.\-]+)(?:[=<>!].*?)?', s)] *)
Definition findall (s : string) : list string :=
  findall_from (String.length s) s.

End Regex.

(** ** Stage 2: the dependency source *)

Module Source.
Import Text.

(** What a run is configured with and what its environment answers:
    [response] is the decoded [APKINDEX] text of the repository ([None]
    when the download, the unpacking or the decoding raises) and
    [test_file] the lines of the fixture file ([None] when the file is
    missing or cannot be read). *)
Record Config := mkConfig {
  test_mode : bool;
  test_file : option (list string);
  response : option string
}.

(** One step of the loop over the lines of [APKINDEX]: the state is the
    [packages] dictionary and [current_pkg]. [None] is an exception
    ([packages[current_pkg]] on a missing key). *)
Definition parse_line (st : Graph * option string) (line : string)
  : option (Graph * option string) :=
  let '(packages, current_pkg) := st in
  if startswith "P:" line then
    let name := drop 2 line in
    Some (Dict.set name [] packages, Some name)
  else if startswith "D:" line then
    match current_pkg with
    | Some pkg =>
        if nonempty pkg then
          let deps := Regex.findall (drop 2 line) in
          match Dict.get packages pkg with
          | Some old =>
              Some (Dict.set pkg (old ++ filter (λ d, nonempty d = true) deps) packages,
                    current_pkg)
          | None => None
          end
        else Some st
    | None => Some st
    end
  else Some st.

Fixpoint parse_lines (lines : list string) (st : Graph * option string)
  : option (Graph * option string) :=
  match lines with
  | [] => Some st
  | line :: rest =>
      match parse_line st line with
      | Some st' => parse_lines rest st'
      | None => None
      end
  end.

(** [download_apkindex]: every exception ends in [None]. *)
Definition download_apkindex (resp : option string) : option Graph :=
  match resp with
  | Some apkindex_content =>
      fst <$> parse_lines (split "010"%char apkindex_content) (Dict.empty, None)
  | None => None
  end.

(** The loop of [get_test_dependencies] over the lines of the file. *)
Fixpoint scan_test_lines (package : string) (lines : list string) : list string :=
  match lines with
  | [] => []
  | raw :: rest =>
      let line := strip raw in
      if negb (nonempty line) || negb (contains ":"%char line)
      then scan_test_lines package rest
      else
        let '(pkg, deps_str) := split_once ":"%char line in
        if decide (pkg = package)
        then strip <$> filter (λ d, nonempty (strip d) = true) (split ","%char deps_str)
        else scan_test_lines package rest
  end.

Definition get_test_dependencies (package : string) (file : option (list string))
  : list string :=
  match file with
  | Some lines => scan_test_lines package lines
  | None => []
  end.

(** The function attribute [apkindex_cache]: absent before the first
    call in real mode, then the result of the one download. *)
Definition Cache : Type := option (option Graph).

(** [apkindex and package in apkindex], then [apkindex[package]]. *)
Definition index_lookup (apkindex : option Graph) (package : string) : list string :=
  match apkindex with
  | Some idx =>
      match idx, Dict.get idx package with
      | _ :: _, Some deps => deps
      | _, _ => []
      end
  | None => []
  end.

Definition fetch_apk_dependencies (cfg : Config) (package : string) (cache : Cache)
  : list string * Cache :=
  if test_mode cfg then (get_test_dependencies package (test_file cfg), cache)
  else
    let apkindex :=
      match cache with
      | None => download_apkindex (response cfg)
      | Some c => c
      end in
    (index_lookup apkindex package, Some apkindex).

(** The list a fetch returns once the cache agrees with the repository:
    the source seen as a function [lookup]. *)
Definition lookup (cfg : Config) (package : string) : list string :=
  if test_mode cfg then get_test_dependencies package (test_file cfg)
  else index_lookup (download_apkindex (response cfg)) package.

Definition cache_ok (cfg : Config) (cache : Cache) : Prop :=
  cache = None ∨ cache = Some (download_apkindex (response cfg)).

End Source.

(** ** Stage 3: the graph builder *)

Module Builder.
Import Source.

(** What a run prints, reduced to two kinds of line: one per call of the
    dependency source, one per cycle found. *)
Inductive Event : Type :=
| EvFetch (package : string)
| EvCycle (package : string).

#[export] Instance Event_eq_dec : EqDecision Event.
Proof. solve_decision. Defined.

(** The objects shared by all the recursive calls of one traversal
    ([visited], [path], [graph]), the cache of the source and the
    output so far. *)
Record State := mkState {
  visited : gset string;
  path : gset string;
  graph : Graph;
  cache : Cache;
  log : list Event
}.

(** [visited = set(); path = set(); graph = {}] *)
Definition fresh (c : Cache) : State := mkState ∅ ∅ Dict.empty c [].

Inductive Outcome : Type :=
| Done (st : State)
| Raised        (* [KeyError] from [path.remove] *)
| OutOfFuel.

(** [for dep in deps: f(dep)] *)
Fixpoint for_each (f : string → State → Outcome) (deps : list string) (st : State)
  : Outcome :=
  match deps with
  | [] => Done st
  | dep :: rest =>
      match f dep st with
      | Done st' => for_each f rest st'
      | o => o
      end
  end.

(** [graph[package] = []] in the cycle branch, with its diagnostic. *)
Definition mark_cycle (package : string) (st : State) : State :=
  mkState (visited st) (path st) (Dict.set package [] (graph st))
          (cache st) (log st ++ [EvCycle package]).

(** [visited.add(package); path.add(package)], the fetch, which leaves
    the cache [c], and [graph[package] = deps]. *)
Definition enter (package : string) (deps : list string) (c : Cache) (st : State)
  : State :=
  mkState ({[package]} ∪ visited st) ({[package]} ∪ path st)
          (Dict.set package deps (graph st)) c (log st ++ [EvFetch package]).

(** [path.remove(package)] on a member. *)
Definition leave (package : string) (st : State) : State :=
  mkState (visited st) (path st ∖ {[package]}) (graph st) (cache st) (log st).

(** [build_dependency_graph] on the objects of the traversal ([version]
    and [repo_url] are only printed); the fuel bounds the depth of the
    recursion. *)
Fixpoint build_dependency_graph (cfg : Config) (fuel : nat) (package : string)
  (st : State) : Outcome :=
  match fuel with
  | O => OutOfFuel
  | S fuel' =>
      if decide (package ∈ path st) then Done (mark_cycle package st)
      else if decide (package ∈ visited st) then Done st
      else
        let '(deps, c) := fetch_apk_dependencies cfg package (cache st) in
        match for_each (build_dependency_graph cfg fuel') deps
                (enter package deps c st) with
        | Done st2 =>
            if decide (package ∈ path st2) then Done (leave package st2)
            else Raised
        | o => o
        end
  end.

(** The objects a top-level call creates when it is given none. *)
Definition run (cfg : Config) (fuel : nat) (package : string) (c : Cache) : Outcome :=
  build_dependency_graph cfg fuel package (fresh c).

(** The dictionary the top-level call returns. *)
Definition top_level_graph (cfg : Config) (fuel : nat) (package : string)
  (c : Cache) : option Graph :=
  match run cfg fuel package c with
  | Done st => Some (graph st)
  | _ => None
  end.

(** The packages the source was asked about, in the order of the calls,
    and the packages reported as cyclic. *)
Definition fetches (l : list Event) : list string :=
  omap (λ e, match e with EvFetch p => Some p | EvCycle _ => None end) l.

Definition cycles (l : list Event) : list string :=
  omap (λ e, match e with EvCycle p => Some p | EvFetch _ => None end) l.

(** The names a source can mention, and a depth of recursion that is
    enough for a traversal from [package]. *)
Definition index_names (apkindex : option Graph) : list string :=
  match apkindex with
  | Some idx => concat idx.*2
  | None => []
  end.

Definition file_names (file : option (list string)) : list string :=
  match file with
  | Some lines =>
      concat ((λ raw, Text.strip <$> Text.split ","%char
                        (Text.split_once ":"%char (Text.strip raw)).2)
                <$> lines)
  | None => []
  end.

Definition names (cfg : Config) : list string :=
  if test_mode cfg then file_names (test_file cfg)
  else index_names (download_apkindex (response cfg)).

Definition universe (cfg : Config) (package : string) : gset string :=
  {[package]} ∪ list_to_set (names cfg).

Definition depth_bound (cfg : Config) (package : string) : nat :=
  S (size (universe cfg package)).

(** The dependency relation a source describes, and reachability in it. *)
Definition depends (cfg : Config) (a b : string) : Prop := b ∈ lookup cfg a.

Definition reach (cfg : Config) : string → string → Prop := rtc (depends cfg).

(** A loop [for dep in deps] whose iterations are related by [P]. *)
Inductive Each (P : string → State → State → Prop)
  : list string → State → State → Prop :=
| Each_nil st : Each P [] st st
| Each_cons dep rest st st1 st2 :
    P dep st st1 → Each P rest st1 st2 → Each P (dep :: rest) st st2.

(** What holds of the shared objects between any two steps of a
    traversal started at [root]. *)
Record Inv (cfg : Config) (root : string) (st : State) : Prop := mkInv {
  inv_path : path st ⊆ visited st;
  inv_keys : Dict.keys (graph st) = fetches (log st);
  inv_nodup : NoDup (fetches (log st));
  inv_fetched : ∀ p, p ∈ fetches (log st) ↔ p ∈ visited st;
  inv_closed : ∀ v d,
    v ∈ visited st → v ∉ path st → d ∈ lookup cfg v → d ∈ visited st;
  inv_reach : ∀ v, v ∈ visited st → reach cfg root v;
  inv_cycles : ∀ p, p ∈ cycles (log st) → p ∈ visited st;
  inv_graph : ∀ p,
    p ∈ visited st →
    Dict.get (graph st) p
    = Some (if decide (p ∈ cycles (log st)) then [] else lookup cfg p)
}.

(** What one call does to the invariant, to [visited] and to [path]. *)
Definition Preserves (cfg : Config) (root : string) (p : string) (st st' : State)
  : Prop :=
  reach cfg root p → Inv cfg root st →
  Inv cfg root st' ∧ visited st ⊆ visited st' ∧ path st' = path st
  ∧ p ∈ visited st'.

(** Two states with the same traversal objects and output; the caches
    may differ. *)
Definition same_objects (st s : State) : Prop :=
  visited st = visited s ∧ path st = path s ∧ graph st = graph s
  ∧ log st = log s.

(** A package the source has nothing for: the repository could not be
    read or its index has no such key; the fixture file is missing or
    no line of it starts with the name. *)
Definition unknown (cfg : Config) (p : string) : Prop :=
  if test_mode cfg then
    match test_file cfg with
    | None => True
    | Some lines =>
        ∀ raw, raw ∈ lines → (Text.split_once ":"%char (Text.strip raw)).1 ≠ p
    end
  else
    match download_apkindex (response cfg) with
    | None => True
    | Some idx => Dict.get idx p = None
    end.

(** The state a run ends in (the fresh state when it does not end). *)
Definition final (o : Outcome) : State :=
  match o with
  | Done st => st
  | _ => fresh None
  end.

(** How many times the source was asked about [p]. *)
Definition lookup_calls (l : list Event) (p : string) : nat :=
  length (filter (λ q, q = p) (fetches l)).

End Builder.

(** ** Stage 4: reverse dependencies *)

Module Reverse.

(** [find_reverse_dependencies], the list it returns. *)
Definition find_reverse_dependencies (graph : Graph) (target : string) : list string :=
  fold_left
    (λ reverse '(pkg, deps), if decide (target ∈ deps) then reverse ++ [pkg] else reverse)
    graph [].

(** [target in graph[k]] for a key [k]. *)
Definition lists (graph : Graph) (target : string) (k : string) : Prop :=
  ∃ deps, Dict.get graph k = Some deps ∧ target ∈ deps.

End Reverse.

(** ** Stage 5: layering and the diagram *)

Module Diagram.

Abbreviation Levels := (gmap string nat).

Definition colors : list string :=
  ["#FF6B6B"; "#4ECDC4"; "#45B7D1"; "#96CEB4"; "#FFEAA7"].

(** The body of [for dep in graph.get(pkg, [])]. *)
Definition discover (level : nat) (acc : Levels * list (string * nat)) (dep : string)
  : Levels * list (string * nat) :=
  let '(levels, queue) := acc in
  match levels !! dep with
  | None => (<[dep := S level]> levels, queue ++ [(dep, S level)])
  | Some _ => acc
  end.

(** [while queue: ...]; the fuel counts the iterations. *)
Fixpoint bfs (graph : Graph) (fuel : nat) (levels : Levels) (queue : list (string * nat))
  : option Levels :=
  match queue with
  | [] => Some levels
  | (pkg, level) :: queue' =>
      match fuel with
      | O => None
      | S fuel' =>
          let '(levels', queue'') :=
            fold_left (discover level) (default [] (Dict.get graph pkg)) (levels, queue') in
          bfs graph fuel' levels' queue''
      end
  end.

(** [list(graph.keys())[0] if graph else ""] *)
Definition root_of (graph : Graph) : string :=
  match Dict.keys graph with
  | k :: _ => k
  | [] => ""
  end.

(** An iteration count that is enough: one per name that can be queued. *)
Definition bfs_bound (graph : Graph) : nat := S (length (concat graph.*2)).

(** The [levels] dictionary of [generate_plantuml]. *)
Definition compute_levels (graph : Graph) : option Levels :=
  let root := root_of graph in
  if Text.nonempty root
  then bfs graph (bfs_bound graph) {[root := 0]} [(root, 0)]
  else Some ∅.

(** [min(levels.get(pkg, 0), len(colors)-1)] *)
Definition tier (levels : Levels) (pkg : string) : nat :=
  default 0 (levels !! pkg) `min` (length colors - 1).

(** [colors[level]]; [None] is an [IndexError]. *)
Definition color_of (levels : Levels) (pkg : string) : option string :=
  colors !! tier levels pkg.

Definition nl : string := String "010"%char "".
Definition dquote : string := String "034"%char "".

(** [s.replace("-", "_")] *)
Fixpoint ident (s : string) : string :=
  match s with
  | String c s' => String (if decide (c = "-"%char) then "_"%char else c) (ident s')
  | EmptyString => EmptyString
  end.

Definition rectangle (levels : Levels) (pkg : string) : option string :=
  color ← color_of levels pkg;
  Some (String.concat "" ["rectangle "; dquote; pkg; dquote; " as "; ident pkg;
                          " #"; color; nl]).

Definition arrows (graph : Graph) : list string :=
  '(pkg, deps) ← graph;
  dep ← deps;
  if Dict.mem graph dep
  then [String.concat "" [ident pkg; " --> "; ident dep; nl]]
  else [].

Definition header : string :=
  String.concat nl
    ["@startuml"; "!define RECTANGLE class"; "skinparam class {";
     "    BackgroundColor White"; "    BorderColor Black";
     "    ArrowColor #555555"; "    FontSize 13"; "}";
     "hide empty members"; "left to right direction"; ""; ""].

(** The text [generate_plantuml] builds and returns. *)
Definition generate_plantuml (graph : Graph) : option string :=
  levels ← compute_levels graph;
  rects ← mapM (rectangle levels) (Dict.keys graph);
  Some (String.concat ""
          ([header] ++ rects ++ [nl] ++ arrows graph ++ ["@enduml"])).

(** The edges the layering follows: [b in graph.get(a, [])]. *)
Definition edge (graph : Graph) (a b : string) : Prop :=
  ∃ deps, Dict.get graph a = Some deps ∧ b ∈ deps.

Definition reachable (graph : Graph) : string → string → Prop := rtc (edge graph).

(** The names that can ever be queued after the root. *)
Definition targets (graph : Graph) : gset string := list_to_set (concat graph.*2).

(** What decreases with every iteration of the loop. *)
Definition measure (graph : Graph) (levels : Levels) (queue : list (string * nat))
  : nat :=
  length queue + size (targets graph ∖ dom levels).

(** What holds of [levels] and [queue] at every test of the loop. *)
Record bfs_inv (graph : Graph) (root : string) (levels : Levels)
  (queue : list (string * nat)) : Prop := mkBfsInv {
  bfs_root : levels !! root = Some 0;
  bfs_parent : ∀ n L,
    levels !! n = Some L →
    (n = root ∧ L = 0)
    ∨ ∃ m Lm, L = S Lm ∧ levels !! m = Some Lm ∧ edge graph m n;
  bfs_queue : ∀ n L, (n, L) ∈ queue → levels !! n = Some L
}.

(** What the queue discipline adds: the queued levels never decrease
    along the queue, no level exceeds a queued level by more than one,
    and every edge out of a package that has left the queue ends in a
    package whose level is at most one more. *)
Record bfs_front (graph : Graph) (levels : Levels)
  (queue : list (string * nat)) : Prop := mkFront {
  front_sorted : StronglySorted le queue.*2;
  front_bound : ∀ p Lp n Ln,
    (p, Lp) ∈ queue → levels !! n = Some Ln → Ln ≤ S Lp;
  front_relaxed : ∀ m Lm n,
    levels !! m = Some Lm → edge graph m n →
    (m, Lm) ∈ queue ∨ ∃ Ln, levels !! n = Some Ln ∧ Ln ≤ S Lm
}.

(** The same during the pass over the dependencies of [pkg], which was
    taken from the queue with level [level]. *)
Record pass_inv (graph : Graph) (pkg : string) (level : nat) (levels : Levels)
  (queue : list (string * nat)) : Prop := mkPass {
  pass_sorted : StronglySorted le queue.*2;
  pass_low : ∀ p Lp, (p, Lp) ∈ queue → level ≤ Lp ∧ Lp ≤ S level;
  pass_bound : ∀ n Ln, levels !! n = Some Ln → Ln ≤ S level;
  pass_relaxed : ∀ m Lm n,
    levels !! m = Some Lm → edge graph m n →
    (m, Lm) ∈ queue ∨ m = pkg ∨ ∃ Ln, levels !! n = Some Ln ∧ Ln ≤ S Lm
}.

End Diagram.

(** ** Concrete sources and graphs *)

Module Examples.
Import Source Builder.

Definition newline : string := String "010"%char "".

(** [A -> [B]], [B -> [A]], as a fixture file. *)
Definition cfg_cycle : Config := mkConfig true (Some ["A:B"; "B:A"]) None.

(** [R -> [P, Q]], [P -> [P]], [Q -> [P]]: [P] is first entered again
    from itself, then reached from [Q]. *)
Definition cfg_revisit : Config :=
  mkConfig true (Some ["R:P,Q"; "P:P"; "Q:P"]) None.

(** [A -> [B, C]], [B -> [D]], [C -> [D]], [D -> []]. *)
Definition cfg_diamond : Config :=
  mkConfig true (Some ["A:B,C"; "B:D"; "C:D"]) None.

(** A repository whose index has one package with a versioned
    dependency. *)
Definition cfg_versioned : Config :=
  mkConfig false None
    (Some (String.concat newline ["P:musl-utils"; "D:libc.so.6=>1.2.3"; ""])).

(** A repository that cannot be reached. *)
Definition cfg_offline : Config := mkConfig false None None.

Definition diamond : Graph :=
  [("A", ["B"; "C"]); ("B", ["D"]); ("D", []); ("C", ["D"])].

(** A dictionary whose first key is the empty string. *)
Definition blank_root : Graph := [("", ["a"]); ("a", [])].

End Examples.

(** ** Stage 1: the configuration

    [configparser] is outside the model: the input of [read_config] is
    what the library does with the file, up to and including
    [dict(config['settings'])] on line 33, which reads every option of
    the section through the library's interpolation of [%] and so can
    fail after the section has been found. *)

Module Settings.
Import Text.

(** [str.lower] on ASCII letters. *)
Definition lower_char (c : ascii) : ascii :=
  if in_range 65 90 c then ascii_of_nat (code c + 32) else c.

Fixpoint lower (s : string) : string :=
  match s with
  | String c s' => String (lower_char c) (lower s')
  | EmptyString => EmptyString
  end.

(** What there is to read: no file; a file on which [config.read] fails
    with an error that is not a [configparser.Error], as it does on bytes
    it cannot decode; a file [configparser] rejects; a file without a
    [settings] section; a section with an option whose value cannot be
    interpolated, such as one with a lone [%]; or the options of the
    section as [dict(config['settings'])] returns them. *)
Inductive Loaded : Type :=
| NoFile
| Undecodable
| BadSyntax
| NoSettings
| Uninterpolable
| Options (params : Dict.t string).

(** The values of the returned dictionary: strings, and the boolean that
    replaces the text of [test_mode]. *)
Inductive Value : Type :=
| VStr (s : string)
| VBool (b : bool).

(** The exceptions that leave [read_config]: the four it raises itself,
    and the two of the library that it lets through, from line 26 (only
    a [configparser.Error] is caught there) and from line 33 (outside the
    [try]). *)
Inductive ConfigError : Type :=
| FileNotFound
| UnicodeDecodeError
| ParseError
| NoSettingsSection
| InterpolationError
| MissingParameter (param : string).

Definition required : list string := ["package_name"; "repository_url"].

(** [for param in required: if param not in params or not params[param]],
    the first parameter that fails the test. *)
Fixpoint first_missing (params : Dict.t string) (req : list string) : option string :=
  match req with
  | [] => None
  | param :: rest =>
      match Dict.get params param with
      | Some v => if nonempty v then first_missing params rest else Some param
      | None => Some param
      end
  end.

(** [params['test_mode'].lower() == 'true'], or [False] without the key. *)
Definition test_mode_flag (params : Dict.t string) : bool :=
  match Dict.get params "test_mode" with
  | Some v => bool_decide (lower v = "true")
  | None => false
  end.

Definition read_config (loaded : Loaded) : ConfigError + Dict.t Value :=
  match loaded with
  | NoFile => inl FileNotFound
  | Undecodable => inl UnicodeDecodeError
  | BadSyntax => inl ParseError
  | NoSettings => inl NoSettingsSection
  | Uninterpolable => inl InterpolationError
  | Options params =>
      match first_missing params required with
      | Some param => inl (MissingParameter param)
      | None =>
          inr (Dict.set "test_mode" (VBool (test_mode_flag params))
                 (prod_map id VStr <$> params))
      end
  end.

End Settings.

(** ** The main flow

    The stages after the configuration, as values: what stage 2 prints as
    direct dependencies, the graph, the reverse dependencies of the root
    and the diagram text. Writing that text to the output file and
    reading it back are outside the model. *)

Module Main.
Import Settings Source Builder.

(** What the environment answers: the lines of a file by path, the
    decoded index by address. *)
Record Env := mkEnv {
  files : string → option (list string);
  http : string → option string
}.

Record Report := mkReport {
  direct : list string;
  built : Graph;
  reverse : list string;
  puml : string
}.

Inductive Exit : Type :=
| Exit0 (r : Report)
| Exit1.

(** The source a configuration selects in an environment. *)
Definition source_of (env : Env) (test_mode : bool) (repo test_repo : string) : Config :=
  mkConfig test_mode (files env test_repo)
           (http env (repo +:+ "/x86_64/APKINDEX.tar.gz")).

Definition main (loaded : Loaded) (env : Env) (fuel : nat) : Exit :=
  match read_config loaded with
  | inl _ => Exit1
  | inr config =>
      match Dict.get config "package_name", Dict.get config "repository_url",
            Dict.get config "test_mode" with
      | Some (VStr pkg), Some (VStr repo), Some (VBool test_mode) =>
          let test_repo :=
            match Dict.get config "test_repo_path" with
            | Some (VStr path) => path
            | _ => "test_graph.txt"
            end in
          let cfg := source_of env test_mode repo test_repo in
          let '(deps, c) := fetch_apk_dependencies cfg pkg None in
          match run cfg fuel pkg c with
          | Done st =>
              let reverse_deps := Reverse.find_reverse_dependencies (graph st) pkg in
              match Diagram.generate_plantuml (graph st) with
              | Some text => Exit0 (mkReport deps (graph st) reverse_deps text)
              | None => Exit1
              end
          | _ => Exit1
          end
      | _, _, _ => Exit1
      end
  end.

End Main.

(** ** Maximal runs of name characters

    What the pattern scan amounts to, written without the pattern: the
    text is cut at every character outside [[\w\.\-]]. *)

Module Runs.
Import Text.

Definition starts_with_name (s : string) : bool :=
  match s with
  | String c _ => is_name_char c
  | EmptyString => false
  end.

(** [c] opens a run or extends the run that [s] starts with. *)
Definition cons_run (c : ascii) (s : string) (rs : list string) : list string :=
  if starts_with_name s then
    match rs with
    | r :: rs' => String c r :: rs'
    | [] => [String c EmptyString]
    end
  else String c EmptyString :: rs.

Fixpoint runs (s : string) : list string :=
  match s with
  | EmptyString => []
  | String c s' => if is_name_char c then cons_run c s' (runs s') else runs s'
  end.

(** Non-empty and made of name characters only. *)
Fixpoint all_name (s : string) : bool :=
  match s with
  | EmptyString => true
  | String c s' => is_name_char c && all_name s'
  end.

Definition is_name (s : string) : bool := nonempty s && all_name s.

(** The name characters of a text, in order. *)
Fixpoint name_chars (s : string) : string :=
  match s with
  | EmptyString => EmptyString
  | String c s' => if is_name_char c then String c (name_chars s') else name_chars s'
  end.

End Runs.

(** ** Invariants of the loops *)

Module Invariants.
Import Text Runs Source.

(** What the loop over the lines of the index keeps true of [packages]
    and [current_pkg]. *)
Definition parse_inv (st : Graph * option string) : Prop :=
  Dict.wf st.1
  ∧ (∀ pkg, st.2 = Some pkg → pkg ∈ Dict.keys st.1)
  ∧ (∀ k deps d, (k, deps) ∈ st.1 → d ∈ deps → is_name d = true).

(** The package a line of the fixture file is about, when the line is
    not skipped, and the dependencies it gives. *)
Definition line_package (raw : string) : option string :=
  let line := strip raw in
  if negb (nonempty line) || negb (contains ":"%char line) then None
  else Some (split_once ":"%char line).1.

Definition line_dependencies (raw : string) : list string :=
  strip <$> filter (λ d, nonempty (strip d) = true)
              (Text.split ","%char (split_once ":"%char (strip raw)).2).

Definition starts_nonspace (s : string) : bool :=
  match s with
  | String c _ => negb (is_space c)
  | EmptyString => true
  end.

(** No blank anywhere in the text. *)
Fixpoint no_space (s : string) : bool :=
  match s with
  | String c s' => negb (is_space c) && no_space s'
  | EmptyString => true
  end.

(** A line of the fixture file in the format [A:B,C]. *)
Definition fixture_line (pkg : string) (deps : list string) : string :=
  pkg +:+ String ":"%char (String.concat "," deps).

(** No package that [root] reaches depends on itself, directly or not. *)
Definition acyclic_from (cfg : Config) (root : string) : Prop :=
  ∀ p, Builder.reach cfg root p → ¬ tc (Builder.depends cfg) p p.

(** One call only adds to the output, and when it expands its package
    the first line it adds is the fetch of that package. *)
Definition Extends (p : string) (st st' : Builder.State) : Prop :=
  (∃ k, Builder.log st' = Builder.log st ++ k)
  ∧ (p ∉ Builder.path st → p ∉ Builder.visited st →
     ∃ k, Builder.log st' = Builder.log st ++ Builder.EvFetch p :: k).

(** When every package on the path reaches [p], a call on [p] reports
    only packages that depend on themselves. *)
Definition Sound (cfg : Config) (p : string) (st st' : Builder.State) : Prop :=
  (∀ a, a ∈ Builder.path st → tc (Builder.depends cfg) a p) →
  Builder.path st' = Builder.path st
  ∧ ∀ q, q ∈ Builder.cycles (Builder.log st') →
         q ∈ Builder.cycles (Builder.log st) ∨ tc (Builder.depends cfg) q q.

(** A height for the packages whose expansion is over: each of their
    dependencies is such a package of smaller height, or was reported as
    cyclic. *)
Definition ranked (cfg : Config) (st : Builder.State) (rank : string → nat)
  (bound : nat) : Prop :=
  ∀ v, v ∈ Builder.visited st → v ∉ Builder.path st →
       rank v < bound
       ∧ ∀ d, d ∈ lookup cfg v →
              (d ∈ Builder.visited st ∧ (d ∉ Builder.path st) ∧ rank d < rank v)
              ∨ d ∈ Builder.cycles (Builder.log st).

(** What one call keeps of the above. *)
Definition Finishes (cfg : Config) (root p : string) (st st' : Builder.State)
  : Prop :=
  Builder.Preserves cfg root p st st'
  ∧ (∀ q, q ∈ Builder.cycles (Builder.log st) →
          q ∈ Builder.cycles (Builder.log st'))
  ∧ (p ∈ Builder.path st' → p ∈ Builder.cycles (Builder.log st'))
  ∧ (Builder.reach cfg root p → Builder.Inv cfg root st →
     ∀ rank bound, ranked cfg st rank bound →
       ∃ rank' bound', ranked cfg st' rank' bound').

End Invariants.

(** ** More concrete inputs *)

Module Samples.
Import Source Builder.

(** A height for the packages of [Examples.cfg_diamond]: every
    dependency is lower than the package that lists it. *)
Definition diamond_rank (p : string) : nat :=
  if decide (p = "A") then 3
  else if decide (p = "B") then 2
  else if decide (p = "C") then 2
  else if decide (p = "D") then 1
  else 0.




End Samples.

(** * Properties *)

(** ** Dictionaries *)

Section dict_facts.
Context {V : Type}.
Implicit Types (d : Dict.t V) (k : string) (v : V).

Lemma dict_get_set_eq d k v : Dict.get (Dict.set k v d) k = Some v.
Proof.
  induction d as [|[k' v'] d IH]; simpl.
  - by rewrite decide_True.
  - destruct (decide (k' = k)) as [->|Hne]; simpl.
    + by rewrite decide_True.
    + by rewrite decide_False.
Qed.

Lemma dict_get_set_ne d k k' v :
  k ≠ k' → Dict.get (Dict.set k v d) k' = Dict.get d k'.
Proof.
  intros Hne. induction d as [|[k0 v0] d IH]; simpl.
  - by rewrite decide_False.
  - destruct (decide (k0 = k)) as [->|Hne0]; simpl.
    + by rewrite !decide_False.
    + by rewrite IH.
Qed.

Lemma dict_keys_set_old d k v :
  k ∈ Dict.keys d → Dict.keys (Dict.set k v d) = Dict.keys d.
Proof.
  unfold Dict.keys. induction d as [|[k0 v0] d IH]; simpl.
  - by intros ?%elem_of_nil.
  - intros Hin. destruct (decide (k0 = k)) as [->|Hne]; simpl; [done|].
    f_equal. apply IH. by apply elem_of_cons in Hin as [->|].
Qed.

Lemma dict_keys_set_new d k v :
  k ∉ Dict.keys d → Dict.keys (Dict.set k v d) = Dict.keys d ++ [k].
Proof.
  unfold Dict.keys. induction d as [|[k0 v0] d IH]; simpl; [done|].
  intros Hin. apply not_elem_of_cons in Hin as [Hne Hin].
  rewrite decide_False by done. simpl. f_equal. by apply IH.
Qed.

Lemma dict_get_None d k : Dict.get d k = None ↔ k ∉ Dict.keys d.
Proof.
  unfold Dict.keys. induction d as [|[k0 v0] d IH]; simpl.
  - split; [intros _; apply not_elem_of_nil | done].
  - destruct (decide (k0 = k)) as [->|Hne].
    + split; [done|]. intros []. apply elem_of_cons; by left.
    + rewrite IH, not_elem_of_cons. split; [intros H; split; [congruence|done] | by intros [_ H]].
Qed.

Lemma dict_get_Some_elem d k v : Dict.get d k = Some v → (k, v) ∈ d.
Proof.
  induction d as [|[k0 v0] d IH]; simpl; [done|].
  destruct (decide (k0 = k)) as [->|Hne].
  - intros [= ->]. apply elem_of_cons; by left.
  - intros H. apply elem_of_cons; right; auto.
Qed.

Lemma dict_elem_get d k v : Dict.wf d → (k, v) ∈ d → Dict.get d k = Some v.
Proof.
  unfold Dict.wf, Dict.keys. induction d as [|[k0 v0] d IH]; simpl.
  - by intros _ ?%elem_of_nil.
  - intros [Hnin Hnd]%NoDup_cons [Heq|Hin]%elem_of_cons.
    + injection Heq as -> ->. by rewrite decide_True.
    + rewrite decide_False; [by apply IH|].
      intros ->. apply Hnin. apply list_elem_of_fmap. by exists (k, v).
Qed.

Lemma dict_wf_set d k v : Dict.wf d → Dict.wf (Dict.set k v d).
Proof.
  unfold Dict.wf. intros Hnd.
  destruct (decide (k ∈ Dict.keys d)) as [Hin|Hnin].
  - by rewrite dict_keys_set_old.
  - rewrite dict_keys_set_new by done.
    apply NoDup_app. split_and!; [done| |apply NoDup_singleton].
    intros x Hx ->%list_elem_of_singleton. done.
Qed.

Lemma dict_mem_spec d k : Dict.mem d k = true ↔ k ∈ Dict.keys d.
Proof. unfold Dict.mem. by rewrite bool_decide_eq_true. Qed.

End dict_facts.

Lemma elem_of_concat {A} (x : A) (ls : list (list A)) :
  x ∈ concat ls ↔ ∃ l, x ∈ l ∧ l ∈ ls.
Proof.
  induction ls as [|l ls IH]; simpl.
  - split; [by intros ?%elem_of_nil | by intros (? & _ & ?%elem_of_nil)].
  - rewrite elem_of_app, IH. split.
    + intros [H | (l' & H1 & H2)]; [exists l | exists l']; split; try done.
      * apply elem_of_cons; by left.
      * apply elem_of_cons; by right.
    + intros (l' & H1 & [-> | H2]%elem_of_cons); [by left | right; eauto].
Qed.

(** ** The pattern scan *)

Section regex_facts.
Import Text Regex.

Lemma span_name_length s :
  String.length s = String.length (span_name s).1 + String.length (span_name s).2.
Proof.
  induction s as [|c s IH]; simpl; [done|].
  destruct (is_name_char c); simpl; [|done].
  destruct (span_name s) as [n r]. simpl in *. lia.
Qed.

Lemma skip_qualifier_length s :
  String.length (skip_qualifier s) ≤ String.length s.
Proof. destruct s as [|c s]; simpl; [done|]. destruct (is_op_char c); simpl; lia. Qed.

(** A match is never empty, so the scan moves on. *)
Lemma match_at_shorter s g rest :
  match_at s = Some (g, rest) → String.length rest < String.length s.
Proof.
  unfold match_at. pose proof (span_name_length s) as Hlen.
  destruct (span_name s) as [n r]. simpl in Hlen.
  destruct n as [|c n]; simpl; [done|]. intros [= <- <-].
  pose proof (skip_qualifier_length r). simpl in Hlen. lia.
Qed.

(** The characters of the text are fuel enough for the scan. *)
Lemma findall_from_enough fuel1 : ∀ fuel2 s,
  String.length s ≤ fuel1 → String.length s ≤ fuel2 →
  findall_from fuel1 s = findall_from fuel2 s.
Proof.
  induction fuel1 as [|fuel1 IH]; intros fuel2 s H1 H2.
  - destruct s; simpl in H1; [|lia]. by destruct fuel2.
  - destruct fuel2 as [|fuel2].
    { destruct s; simpl in H2; [done|lia]. }
    destruct s as [|c s]; [done|]. simpl findall_from.
    destruct (match_at (String c s)) as [[g rest]|] eqn:Hm.
    + apply match_at_shorter in Hm. f_equal. apply IH; lia.
    + simpl in H1, H2. apply IH; lia.
Qed.

End regex_facts.

(** ** The dependency source *)

Section source_facts.
Import Source Builder.
Variable cfg : Config.

(** With a cache that is absent or holds the one download, a fetch
    returns [lookup] and leaves such a cache. *)
Lemma fetch_lookup package c :
  cache_ok cfg c →
  ∃ c', fetch_apk_dependencies cfg package c = (lookup cfg package, c')
        ∧ cache_ok cfg c'.
Proof.
  unfold fetch_apk_dependencies, lookup, cache_ok.
  intros Hc. destruct (test_mode cfg).
  - by exists c.
  - destruct Hc as [-> | ->]; eexists; split; eauto.
Qed.

Lemma scan_test_lines_names package lines d :
  d ∈ scan_test_lines package lines → d ∈ file_names (Some lines).
Proof.
  unfold file_names. induction lines as [|raw rest IH]; simpl.
  - by intros ?%elem_of_nil.
  - intros Hd. apply elem_of_app.
    destruct (negb (Text.nonempty (Text.strip raw))
              || negb (Text.contains ":" (Text.strip raw))); [right; auto|].
    destruct (Text.split_once ":" (Text.strip raw)) as [pkg deps_str]; simpl.
    destruct (decide (pkg = package)); [left|right; auto].
    apply list_elem_of_fmap in Hd as (x & -> & Hx).
    apply list_elem_of_fmap. exists x. split; [done|].
    by apply list_elem_of_filter in Hx as [_ Hx].
Qed.

Lemma index_lookup_names apkindex package d :
  d ∈ index_lookup apkindex package → d ∈ index_names apkindex.
Proof.
  unfold index_lookup, index_names. destruct apkindex as [idx|].
  - destruct idx as [|e idx']; [by intros ?%elem_of_nil|].
    set (idx := e :: idx'). destruct (Dict.get idx package) as [deps|] eqn:Hget.
    + intros Hd. apply dict_get_Some_elem in Hget.
      apply elem_of_concat. exists deps. split; [done|].
      apply list_elem_of_fmap. by exists (package, deps).
    + by intros ?%elem_of_nil.
  - by intros ?%elem_of_nil.
Qed.

(** Every name the source returns is one of its finitely many names. *)
Lemma lookup_names package d : d ∈ lookup cfg package → d ∈ names cfg.
Proof.
  unfold lookup, names. destruct (test_mode cfg).
  - unfold get_test_dependencies. destruct (test_file cfg) as [lines|].
    + apply scan_test_lines_names.
    + by intros ?%elem_of_nil.
  - apply index_lookup_names.
Qed.

Lemma lookup_universe root package d :
  d ∈ lookup cfg package → d ∈ universe cfg root.
Proof.
  intros Hd%lookup_names. unfold universe. set_solver.
Qed.

Lemma unknown_lookup package : unknown cfg package → lookup cfg package = [].
Proof.
  unfold unknown, lookup. destruct (test_mode cfg).
  - unfold get_test_dependencies. destruct (test_file cfg) as [lines|]; [|done].
    induction lines as [|raw rest IH]; intros Hun; simpl; [done|].
    assert (Hrest : scan_test_lines package rest = []).
    { apply IH. intros r Hr. apply Hun. by right. }
    destruct (negb _ || negb _); [done|].
    pose proof (Hun raw ltac:(by left)) as Hraw.
    destruct (Text.split_once ":" (Text.strip raw)) as [pkg deps_str].
    simpl in Hraw. by rewrite decide_False.
  - unfold index_lookup.
    destruct (download_apkindex (response cfg)) as [idx|]; [|done].
    intros Hget. destruct idx as [|e idx']; [done|]. by rewrite Hget.
Qed.

End source_facts.

(** ** The graph builder *)

Section builder_facts.
Import Source Builder.
Variable cfg : Config.

Lemma fetches_app l1 l2 : fetches (l1 ++ l2) = fetches l1 ++ fetches l2.
Proof. apply omap_app. Qed.

Lemma cycles_app l1 l2 : cycles (l1 ++ l2) = cycles l1 ++ cycles l2.
Proof. apply omap_app. Qed.

Lemma Each_mono (P Q : string → State → State → Prop) deps st st' :
  (∀ d s s', P d s s' → Q d s s') → Each P deps st st' → Each Q deps st st'.
Proof. intros HPQ. induction 1; econstructor; eauto. Qed.

(** A run that ends normally took one of the three branches, and in the
    third every iteration of the loop ended normally too. *)
Lemma build_Done_ind (P : string → State → State → Prop) :
  (∀ p st, p ∈ path st → P p st (mark_cycle p st)) →
  (∀ p st, p ∉ path st → p ∈ visited st → P p st st) →
  (∀ p st c st2,
      p ∉ path st → p ∉ visited st →
      Each P (lookup cfg p) (enter p (lookup cfg p) c st) st2 →
      p ∈ path st2 →
      P p st (leave p st2)) →
  ∀ fuel p st st',
    cache_ok cfg (cache st) →
    build_dependency_graph cfg fuel p st = Done st' →
    P p st st' ∧ cache_ok cfg (cache st').
Proof.
  intros Hcyc Hvis Hnew. induction fuel as [|fuel IH]; intros p st st' Hc; simpl; [done|].
  destruct (decide (p ∈ path st)) as [Hp|Hp]; [intros [= <-]; auto|].
  destruct (decide (p ∈ visited st)) as [Hv|Hv]; [intros [= <-]; auto|].
  destruct (fetch_lookup cfg p (cache st) Hc) as (c & -> & Hc').
  assert (Hloop : ∀ deps s s',
    cache_ok cfg (cache s) →
    for_each (build_dependency_graph cfg fuel) deps s = Done s' →
    Each P deps s s' ∧ cache_ok cfg (cache s')).
  { induction deps as [|d deps IHd]; intros s s' Hs; simpl.
    - intros [= <-]. split; [constructor|done].
    - destruct (build_dependency_graph cfg fuel d s) as [s1| |] eqn:Hd; try done.
      intros Hrest. destruct (IH _ _ _ Hs Hd) as [HP Hs1].
      destruct (IHd _ _ Hs1 Hrest) as [HE Hs']. split; [|done].
      econstructor; eauto. }
  destruct (for_each _ _ _) as [st2| |] eqn:Hfor; try done.
  destruct (decide (p ∈ path st2)) as [Hp2|]; [|done].
  intros [= <-]. destruct (Hloop _ (enter p (lookup cfg p) c st) _ Hc' Hfor) as [HE Hc2].
  split; [|done]. eapply Hnew; eauto.
Qed.

(** Termination. Every package that is expanded leaves [U ∖ visited],
    so a depth of one more than its size is never exhausted, and the
    loop over the dependencies never raises. *)
Lemma build_terminates (U : gset string) fuel : ∀ p st,
  (∀ q d, d ∈ lookup cfg q → d ∈ U) →
  p ∈ U →
  cache_ok cfg (cache st) →
  size (U ∖ visited st) < fuel →
  ∃ st', build_dependency_graph cfg fuel p st = Done st'
         ∧ visited st ⊆ visited st' ∧ path st' = path st
         ∧ cache_ok cfg (cache st').
Proof.
  induction fuel as [|fuel IH]; intros p st HU Hp Hc Hsize; [lia|]. simpl.
  destruct (decide (p ∈ path st)) as [Hpath|Hpath]; [by eexists|].
  destruct (decide (p ∈ visited st)) as [Hvis|Hvis]; [by eexists|].
  destruct (fetch_lookup cfg p (cache st) Hc) as (c & -> & Hc').
  set (st1 := enter p (lookup cfg p) c st).
  assert (Hlt : size (U ∖ visited st1) < size (U ∖ visited st)).
  { apply subset_size. simpl. set_solver. }
  assert (Hloop : ∀ deps s,
    (∀ d, d ∈ deps → d ∈ U) → cache_ok cfg (cache s) →
    visited st1 ⊆ visited s →
    ∃ s', for_each (build_dependency_graph cfg fuel) deps s = Done s'
          ∧ visited s ⊆ visited s' ∧ path s' = path s
          ∧ cache_ok cfg (cache s')).
  { induction deps as [|d deps IHd]; intros s Hdeps Hs Hsub; simpl; [by eexists|].
    destruct (IH d s HU) as (s1 & -> & Hv1 & Hp1 & Hc1); [set_solver|done| |].
    { assert (size (U ∖ visited s) ≤ size (U ∖ visited st1))%nat.
      { apply subseteq_size. set_solver. }
      lia. }
    destruct (IHd s1) as (s' & -> & Hv' & Hp' & Hc'');
      [set_solver|done|set_solver|].
    exists s'. split_and!; [done|set_solver|congruence|done]. }
  destruct (Hloop (lookup cfg p) st1) as (st2 & -> & Hv2 & Hp2 & Hc2);
    [by eauto|done|done|].
  rewrite decide_True by (rewrite Hp2; simpl; set_solver).
  eexists. split; [done|]. simpl. split_and!; [|rewrite Hp2|done].
  - simpl in Hv2. set_solver.
  - simpl. set_solver.
Qed.

(** *** The invariant of a traversal *)

Lemma Inv_fresh root c : Inv cfg root (fresh c).
Proof.
  split; simpl; try done.
  - apply NoDup_nil_2.
  - intros p. split; [by intros ?%elem_of_nil | set_solver].
  - intros p ?%elem_of_nil. done.
Qed.

Lemma Inv_mark_cycle root p st :
  Inv cfg root st → p ∈ path st → Inv cfg root (mark_cycle p st).
Proof.
  intros [Hpath Hkeys Hnd Hfet Hcl Hre Hcy Hgr] Hp.
  assert (Hpv : p ∈ visited st) by set_solver.
  split; simpl; rewrite ?fetches_app, ?cycles_app; simpl;
    rewrite ?app_nil_r; try done.
  - rewrite dict_keys_set_old; [done|]. rewrite Hkeys. by apply Hfet.
  - intros q [Hq | ->%list_elem_of_singleton]%elem_of_app; auto.
  - intros q Hq. destruct (decide (p = q)) as [->|Hne].
    + rewrite dict_get_set_eq, decide_True; [done|].
      apply elem_of_app. right. by apply list_elem_of_singleton.
    + rewrite dict_get_set_ne, Hgr by done. f_equal.
      destruct (decide (q ∈ cycles (log st))) as [Hin|Hnin].
      * rewrite decide_True; [done|]. apply elem_of_app; by left.
      * rewrite decide_False; [done|].
        intros [? | ->%list_elem_of_singleton]%elem_of_app; done.
Qed.

Lemma Inv_enter root p c st :
  Inv cfg root st → p ∉ visited st → reach cfg root p →
  Inv cfg root (enter p (lookup cfg p) c st).
Proof.
  intros [Hpath Hkeys Hnd Hfet Hcl Hre Hcy Hgr] Hp Hrp.
  assert (Hpf : p ∉ fetches (log st)) by (by rewrite Hfet).
  split; simpl; rewrite ?fetches_app, ?cycles_app; simpl;
    rewrite ?app_nil_r; try done.
  - set_solver.
  - rewrite dict_keys_set_new, Hkeys; [done|]. by rewrite Hkeys.
  - apply NoDup_app. split_and!; [done| |apply NoDup_singleton].
    intros x Hx ->%list_elem_of_singleton. done.
  - intros q. rewrite elem_of_app, list_elem_of_singleton, Hfet. set_solver.
  - intros v d Hv Hvp Hd. apply elem_of_union. right.
    apply (Hcl v d); [set_solver|set_solver|done].
  - intros v [->%elem_of_singleton | Hv]%elem_of_union; auto.
  - intros q Hq. apply elem_of_union. right. auto.
  - intros q Hq. destruct (decide (p = q)) as [->|Hne].
    + rewrite dict_get_set_eq, decide_False; [done|]. intros ?%Hcy. done.
    + rewrite dict_get_set_ne by done. apply Hgr. set_solver.
Qed.

Lemma Inv_leave root p st :
  Inv cfg root st →
  (∀ d, d ∈ lookup cfg p → d ∈ visited st) →
  Inv cfg root (leave p st).
Proof.
  intros [Hpath Hkeys Hnd Hfet Hcl Hre Hcy Hgr] Hdeps.
  split; simpl; try done.
  - set_solver.
  - intros v d Hv Hvp Hd. destruct (decide (v = p)) as [->|Hne]; [auto|].
    apply (Hcl v d); [done|set_solver|done].
Qed.

Lemma Each_preserves root deps st st' :
  Each (Preserves cfg root) deps st st' →
  (∀ d, d ∈ deps → reach cfg root d) → Inv cfg root st →
  Inv cfg root st' ∧ visited st ⊆ visited st' ∧ path st' = path st
  ∧ ∀ d, d ∈ deps → d ∈ visited st'.
Proof.
  induction 1 as [st|d rest st st1 st2 Hd Hrest IH]; intros Hreach HI.
  - split_and!; [done..|]. by intros d ?%elem_of_nil.
  - destruct Hd as (HI1 & Hv1 & Hp1 & Hd1); [apply Hreach; by left|done|].
    destruct IH as (HI2 & Hv2 & Hp2 & Hd2);
      [intros; apply Hreach; by right|done|].
    split_and!; [done|set_solver|congruence|].
    intros d' [->|Hin]%elem_of_cons; [set_solver|auto].
Qed.

Lemma build_preserves root fuel p st st' :
  cache_ok cfg (cache st) →
  build_dependency_graph cfg fuel p st = Done st' →
  Preserves cfg root p st st' ∧ cache_ok cfg (cache st').
Proof.
  apply build_Done_ind; clear fuel p st st'.
  - intros p st Hp _ HI. split_and!; [by apply Inv_mark_cycle|done..|].
    simpl. by apply (inv_path _ _ _ HI).
  - intros p st _ Hv _ HI. done.
  - intros p st c st2 Hp Hv HE Hp2 Hrp HI.
    apply Each_preserves in HE as (HI2 & Hv2 & Hpath2 & Hdeps).
    + split_and!.
      * by apply Inv_leave.
      * simpl in *. set_solver.
      * simpl in *. rewrite Hpath2. set_solver.
      * simpl in *. set_solver.
    + intros d Hd. eapply rtc_r; [exact Hrp|exact Hd].
    + by apply Inv_enter.
Qed.

(** *** More fuel, another cache: the same traversal *)

Lemma for_each_mono (F G : string → State → Outcome) deps : ∀ st st',
  (∀ d s s', F d s = Done s' → G d s = Done s') →
  for_each F deps st = Done st' → for_each G deps st = Done st'.
Proof.
  induction deps as [|d deps IH]; intros st st' HFG; simpl; [done|].
  destruct (F d st) as [s1| |] eqn:Hd; try done.
  rewrite (HFG _ _ _ Hd). by apply IH.
Qed.

Lemma build_fuel_mono fuel : ∀ fuel' p st st',
  (fuel ≤ fuel')%nat →
  build_dependency_graph cfg fuel p st = Done st' →
  build_dependency_graph cfg fuel' p st = Done st'.
Proof.
  induction fuel as [|fuel IH]; intros fuel' p st st' Hle; [done|].
  destruct fuel' as [|fuel']; [lia|]. simpl.
  destruct (decide (p ∈ path st)); [done|].
  destruct (decide (p ∈ visited st)); [done|].
  destruct (fetch_apk_dependencies cfg p (cache st)) as [deps c].
  destruct (for_each (build_dependency_graph cfg fuel) deps _) as [st2| |] eqn:Hfor;
    try done.
  erewrite for_each_mono; [done| |exact Hfor].
  intros d s s'. apply IH. lia.
Qed.

Lemma build_cache_irrelevant fuel : ∀ p st s st',
  cache_ok cfg (cache st) → cache_ok cfg (cache s) → same_objects st s →
  build_dependency_graph cfg fuel p st = Done st' →
  ∃ s', build_dependency_graph cfg fuel p s = Done s' ∧ same_objects st' s'.
Proof.
  induction fuel as [|fuel IH]; intros p st s st' Hc Hc' Hsame; [done|].
  destruct st as [v pa g c l], s as [v' pa' g' c' l'].
  destruct Hsame as (Hv & Hp & Hg & Hl). simpl in *. subst v' pa' g' l'.
  destruct (decide (p ∈ pa)); [intros [= <-]; by eexists|].
  destruct (decide (p ∈ v)); [intros [= <-]; by eexists|].
  destruct (fetch_lookup cfg p c Hc) as (c1 & -> & Hc1).
  destruct (fetch_lookup cfg p c' Hc') as (c1' & -> & Hc1').
  assert (Hloop : ∀ deps a b a',
    cache_ok cfg (cache a) → cache_ok cfg (cache b) → same_objects a b →
    for_each (build_dependency_graph cfg fuel) deps a = Done a' →
    ∃ b', for_each (build_dependency_graph cfg fuel) deps b = Done b'
          ∧ same_objects a' b').
  { induction deps as [|d deps IHd]; intros a b a' Ha Hb Hab; simpl.
    - intros [= <-]. by exists b.
    - destruct (build_dependency_graph cfg fuel d a) as [a1| |] eqn:Hd; try done.
      intros Hrest.
      destruct (IH _ _ _ _ Ha Hb Hab Hd) as (b1 & Hb1 & Hab1). rewrite Hb1.
      eapply IHd; [| |exact Hab1|exact Hrest].
      + eapply (build_preserves ""); [exact Ha|exact Hd].
      + eapply (build_preserves ""); [exact Hb|exact Hb1]. }
  destruct (for_each _ _ _) as [st2| |] eqn:Hfor; try done.
  eapply Hloop in Hfor as (s2 & -> & (Hv2 & Hp2 & Hg2 & Hl2)); [|done|exact Hc1'|done].
  rewrite <- Hp2. destruct (decide (p ∈ path st2)); [|done].
  intros [= <-]. eexists. split; [done|]. unfold same_objects. simpl.
  by rewrite Hv2, Hp2, Hg2, Hl2.
Qed.

(** *** The three branches, one at a time *)

Lemma for_each_one (f : string → State → Outcome) d st :
  for_each f [d] st = f d st.
Proof. simpl. by destruct (f d st). Qed.

Lemma build_cycle fuel p st :
  p ∈ path st → build_dependency_graph cfg (S fuel) p st = Done (mark_cycle p st).
Proof. intros Hp. simpl. by rewrite decide_True. Qed.

Lemma build_seen fuel p st :
  p ∉ path st → p ∈ visited st →
  build_dependency_graph cfg (S fuel) p st = Done st.
Proof. intros Hp Hv. simpl. by rewrite decide_False, decide_True. Qed.

Lemma build_new fuel p st :
  cache_ok cfg (cache st) → p ∉ path st → p ∉ visited st →
  ∃ c, cache_ok cfg c ∧
    build_dependency_graph cfg (S fuel) p st
    = match for_each (build_dependency_graph cfg fuel) (lookup cfg p)
              (enter p (lookup cfg p) c st) with
      | Done st2 =>
          if decide (p ∈ path st2) then Done (leave p st2) else Raised
      | o => o
      end.
Proof.
  intros Hc Hp Hv. simpl. rewrite !decide_False by done.
  destruct (fetch_lookup cfg p (cache st) Hc) as (c & -> & Hc'). by exists c.
Qed.


(** *** Whole runs *)

Lemma run_Inv root c fuel st :
  cache_ok cfg c → run cfg fuel root c = Done st →
  Inv cfg root st ∧ path st = ∅ ∧ root ∈ visited st ∧ cache_ok cfg (cache st).
Proof.
  unfold run. intros Hc Hrun.
  destruct (build_preserves root fuel root (fresh c) st Hc Hrun) as [Hpres Hc'].
  destruct Hpres as (HI & _ & Hp & Hv); [apply rtc_refl|apply Inv_fresh|].
  done.
Qed.

Lemma run_terminates root c fuel :
  cache_ok cfg c → depth_bound cfg root ≤ fuel →
  ∃ st, run cfg fuel root c = Done st.
Proof.
  unfold run, depth_bound. intros Hc Hfuel.
  destruct (build_terminates (universe cfg root) fuel root (fresh c))
    as (st & Hrun & _); eauto.
  - intros q d. apply lookup_universe.
  - unfold universe. set_solver.
  - assert (size (universe cfg root ∖ visited (fresh c)) ≤ size (universe cfg root))%nat
      by (apply subseteq_size; set_solver).
    lia.
Qed.

(** Two complete runs from the same root agree on everything but the
    cache, whatever fuel and cache each was given. *)
Lemma run_deterministic root c1 c2 fuel1 fuel2 st1 st2 :
  cache_ok cfg c1 → cache_ok cfg c2 →
  run cfg fuel1 root c1 = Done st1 → run cfg fuel2 root c2 = Done st2 →
  same_objects st1 st2.
Proof.
  unfold run. intros Hc1 Hc2 H1 H2.
  apply (build_fuel_mono _ (fuel1 `max` fuel2)) in H1; [|lia].
  apply (build_fuel_mono _ (fuel1 `max` fuel2)) in H2; [|lia].
  destruct (build_cache_irrelevant (fuel1 `max` fuel2) root (fresh c1) (fresh c2)
              st1 Hc1 Hc2)
    as (s2 & Hs2 & Hsame); [done|exact H1|].
  congruence.
Qed.

(** With [path] empty, [visited] is closed under the dependency
    relation, so it holds everything the root reaches. *)
Lemma closed_reach root st p :
  Inv cfg root st → path st = ∅ → root ∈ visited st →
  reach cfg root p → p ∈ visited st.
Proof.
  intros HI Hpath Hroot Hreach.
  apply (rtc_ind_r (R:=depends cfg) (λ p, p ∈ visited st) root);
    [done| |exact Hreach].
  intros q r Hqr Hstep IH.
  apply (inv_closed _ _ _ HI q r); [done| |done].
  rewrite Hpath. set_solver.
Qed.

Lemma count_NoDup (l : list string) p :
  NoDup l → length (filter (λ q, q = p) l) = if decide (p ∈ l) then 1 else 0.
Proof.
  induction 1 as [|x l Hx Hnd IH]; [done|].
  rewrite filter_cons. destruct (decide (x = p)) as [->|Hne]; simpl.
  - rewrite IH, decide_False, decide_True; [done|by left|done].
  - rewrite IH. destruct (decide (p ∈ l)) as [Hin|Hnin].
    + rewrite decide_True; [done|by right].
    + rewrite decide_False; [done|]. intros [->|]%elem_of_cons; done.
Qed.

Lemma run_lookup_calls root c fuel st p :
  cache_ok cfg c → run cfg fuel root c = Done st →
  (reach cfg root p → lookup_calls (log st) p = 1)
  ∧ (¬ reach cfg root p → lookup_calls (log st) p = 0).
Proof.
  intros Hc Hrun. destruct (run_Inv _ _ _ _ Hc Hrun) as (HI & Hpath & Hroot & _).
  unfold lookup_calls. rewrite count_NoDup by apply (inv_nodup _ _ _ HI).
  split; intros Hr.
  - rewrite decide_True; [done|].
    apply (inv_fetched _ _ _ HI). by eapply closed_reach.
  - rewrite decide_False; [done|].
    intros Hin%(inv_fetched _ _ _ HI). by apply (inv_reach _ _ _ HI) in Hin.
Qed.

End builder_facts.

(** ** Reverse dependencies *)

Section reverse_facts.
Import Reverse.

Lemma filter_ext_in {A} (P Q : A → Prop) `{!∀ x, Decision (P x), !∀ x, Decision (Q x)}
  (l : list A) :
  (∀ x, x ∈ l → P x ↔ Q x) → filter P l = filter Q l.
Proof.
  induction l as [|x l IH]; intros Hext; [done|].
  rewrite !filter_cons.
  assert (Hl : filter P l = filter Q l).
  { apply IH. intros y Hy. apply Hext. by right. }
  destruct (decide (P x)) as [HP|HP], (decide (Q x)) as [HQ|HQ];
    rewrite ?Hl; try done.
  - exfalso. apply HQ. apply Hext; [by left|done].
  - exfalso. apply HP. apply Hext; [by left|done].
Qed.

(** The loop appends, in order, the keys whose list holds the target. *)
Lemma find_reverse_scan graph target :
  find_reverse_dependencies graph target
  = (filter (λ kv : string * list string, target ∈ kv.2) graph).*1.
Proof.
  unfold find_reverse_dependencies.
  enough (H : ∀ acc,
    fold_left (λ reverse '(pkg, deps),
                if decide (target ∈ deps) then reverse ++ [pkg] else reverse) graph acc
    = acc ++ (filter (λ kv : string * list string, target ∈ kv.2) graph).*1)
    by apply (H []).
  induction graph as [|[k deps] graph IH]; intros acc.
  - simpl. by rewrite app_nil_r.
  - rewrite filter_cons. simpl. rewrite IH.
    destruct (decide (target ∈ deps)); simpl; [by rewrite <- app_assoc|done].
Qed.

Lemma find_reverse_keys graph target :
  Dict.wf graph →
  find_reverse_dependencies graph target
  = filter (λ k, target ∈ default [] (Dict.get graph k)) (Dict.keys graph).
Proof.
  rewrite find_reverse_scan. unfold Dict.wf, Dict.keys.
  induction graph as [|[k deps] graph IH]; [done|].
  rewrite !fmap_cons. simpl fst. intros [Hk Hnd]%NoDup_cons.
  assert (Hhead : Dict.get ((k, deps) :: graph) k = Some deps)
    by (simpl; by rewrite decide_True).
  assert (Hrest : filter (λ k0, target ∈ default [] (Dict.get ((k, deps) :: graph) k0))
                    graph.*1
                  = filter (λ k0, target ∈ default [] (Dict.get graph k0)) graph.*1).
  { apply filter_ext_in. intros x Hx. simpl.
    rewrite decide_False; [done|]. by intros ->. }
  destruct (decide (target ∈ deps)) as [Hin|Hnin].
  - rewrite (filter_cons_True _ (k, deps)) by done.
    rewrite (filter_cons_True _ k) by (by rewrite Hhead).
    rewrite fmap_cons, Hrest, <- IH by done. done.
  - rewrite (filter_cons_False _ (k, deps)) by done.
    rewrite (filter_cons_False _ k) by (by rewrite Hhead).
    rewrite Hrest, <- IH by done. done.
Qed.

Lemma find_reverse_elem graph target k :
  k ∈ find_reverse_dependencies graph target → ∃ deps, (k, deps) ∈ graph ∧ target ∈ deps.
Proof.
  rewrite find_reverse_scan. intros ([k' deps] & -> & Hin)%list_elem_of_fmap.
  apply list_elem_of_filter in Hin as [Ht Hin]. by exists deps.
Qed.

End reverse_facts.

(** ** Layering *)

Section diagram_facts.
Import Diagram.
Variable graph : Graph.

Lemma edge_get pkg dep :
  dep ∈ default [] (Dict.get graph pkg) → edge graph pkg dep.
Proof.
  unfold edge. destruct (Dict.get graph pkg) as [deps|]; simpl.
  - intros Hin. by exists deps.
  - by intros ?%elem_of_nil.
Qed.

Lemma edge_targets pkg dep : edge graph pkg dep → dep ∈ targets graph.
Proof.
  intros (deps & Hget%dict_get_Some_elem & Hin). unfold targets.
  apply elem_of_list_to_set, elem_of_concat. exists deps. split; [done|].
  apply list_elem_of_fmap. by exists (pkg, deps).
Qed.

(** *** One pass over the dependencies of the package taken from the queue *)

Lemma discover_inv root pkg level deps : ∀ levels queue,
  bfs_inv graph root levels queue →
  levels !! pkg = Some level →
  (∀ dep, dep ∈ deps → edge graph pkg dep) →
  let r := fold_left (discover level) deps (levels, queue) in
  bfs_inv graph root r.1 r.2 ∧ levels ⊆ r.1.
Proof.
  induction deps as [|dep deps IH]; intros levels queue HI Hpkg Hedge; simpl; [done|].
  destruct (levels !! dep) as [L|] eqn:Hdep.
  - apply IH; [done..|]. intros d Hd. apply Hedge. by right.
  - assert (Hsub : levels ⊆ <[dep:=S level]> levels) by by apply insert_subseteq.
    destruct (IH (<[dep:=S level]> levels) (queue ++ [(dep, S level)]))
      as [HI' Hsub'].
    + destruct HI as [Hroot Hpar Hq]. split.
      * by eapply lookup_weaken.
      * intros n L. destruct (decide (n = dep)) as [->|Hne].
        -- rewrite lookup_insert_eq. intros [= <-]. right.
           exists pkg, level. split_and!; [done| |apply Hedge; by left].
           by eapply lookup_weaken.
        -- rewrite lookup_insert_ne by done. intros [Hn | (m & Lm & -> & Hm & He)]%Hpar.
           ++ by left.
           ++ right. exists m, Lm. split_and!; [done| |done].
              by eapply lookup_weaken.
      * intros n L [Hin | [= -> ->]%list_elem_of_singleton]%elem_of_app.
        -- eapply lookup_weaken; [by apply Hq|done].
        -- by rewrite lookup_insert_eq.
    + by eapply lookup_weaken.
    + intros d Hd. apply Hedge. by right.
    + split; [done|]. by etrans.
Qed.

Lemma bfs_inv_loop root fuel : ∀ levels queue result,
  bfs graph fuel levels queue = Some result →
  bfs_inv graph root levels queue →
  bfs_inv graph root result [] ∧ levels ⊆ result.
Proof.
  induction fuel as [|fuel IH]; intros levels queue result.
  - destruct queue as [|[pkg level] queue]; simpl; [|done].
    intros [= <-] HI. done.
  - destruct queue as [|[pkg level] queue]; simpl.
    { intros [= <-] HI. done. }
    intros Hbfs HI.
    destruct (discover_inv root pkg level (default [] (Dict.get graph pkg))
                levels queue) as [HI' Hsub].
    + destruct HI as [Hroot Hpar Hq]. split; [done..|].
      intros n L Hin. apply Hq. by right.
    + apply (bfs_queue _ _ _ _ HI). by left.
    + intros dep. apply edge_get.
    + destruct (fold_left _ _ _) as [levels' queue']. simpl in *.
      destruct (IH _ _ _ Hbfs HI') as [HIr Hsubr]. split; [done|]. by etrans.
Qed.

(** *** Levels are distances *)

Lemma discover_front pkg level deps : ∀ levels queue,
  pass_inv graph pkg level levels queue →
  let r := fold_left (discover level) deps (levels, queue) in
  pass_inv graph pkg level r.1 r.2
  ∧ levels ⊆ r.1
  ∧ ∀ dep, dep ∈ deps → ∃ Ld, r.1 !! dep = Some Ld ∧ Ld ≤ S level.
Proof.
  induction deps as [|dep deps IH]; intros levels queue HP; simpl.
  { split_and!; [done..|]. by intros dep ?%elem_of_nil. }
  destruct (levels !! dep) as [L|] eqn:Hdep.
  - destruct (IH levels queue HP) as (HP' & Hsub & Hdeps).
    split_and!; [done..|]. intros d [->|Hd]%elem_of_cons; [|auto].
    exists L. split; [by eapply lookup_weaken|].
    by apply (pass_bound _ _ _ _ _ HP dep L).
  - assert (Hins : levels ⊆ <[dep:=S level]> levels) by by apply insert_subseteq.
    destruct (IH (<[dep:=S level]> levels) (queue ++ [(dep, S level)]))
      as (HP' & Hsub & Hdeps).
    + destruct HP as [Hsorted Hlow Hbound Hrel]. split.
      * rewrite fmap_app. apply StronglySorted_app_2; [|done|].
        -- intros x y Hx Hy. simpl in Hy.
           apply list_elem_of_singleton in Hy as ->.
           apply list_elem_of_fmap in Hx as ([p Lp] & -> & Hin).
           by apply (Hlow p Lp).
        -- repeat constructor.
      * intros p Lp [Hin | [= -> ->]%list_elem_of_singleton]%elem_of_app;
          [by apply (Hlow p) | lia].
      * intros n Ln. destruct (decide (n = dep)) as [->|Hne].
        -- rewrite lookup_insert_eq. by intros [= <-].
        -- rewrite lookup_insert_ne by done. apply Hbound.
      * intros m Lm n. destruct (decide (m = dep)) as [->|Hne].
        -- rewrite lookup_insert_eq. intros [= <-] _. left.
           apply elem_of_app. right. by apply list_elem_of_singleton.
        -- rewrite lookup_insert_ne by done. intros Hm He.
           destruct (Hrel m Lm n Hm He) as [Hq | [Hp | (Ln & Hn & Hle)]].
           ++ left. apply elem_of_app. by left.
           ++ right. by left.
           ++ right. right. exists Ln. split; [by eapply lookup_weaken|done].
    + split_and!; [done|by etrans|].
      intros d [->|Hd]%elem_of_cons; [|auto].
      exists (S level). split; [|done].
      eapply lookup_weaken; [apply lookup_insert_eq|done].
Qed.

Lemma bfs_front_loop root fuel : ∀ levels queue result,
  bfs graph fuel levels queue = Some result →
  bfs_inv graph root levels queue → bfs_front graph levels queue →
  bfs_front graph result [].
Proof.
  induction fuel as [|fuel IH]; intros levels queue result.
  { destruct queue as [|[pkg level] queue]; simpl; [|done]. by intros [= <-]. }
  destruct queue as [|[pkg level] queue]; simpl; [by intros [= <-]|].
  intros Hbfs HI [Hsorted Hbound Hrel].
  assert (Hpkg : levels !! pkg = Some level)
    by (apply (bfs_queue _ _ _ _ HI); by left).
  rewrite fmap_cons in Hsorted. apply StronglySorted_cons in Hsorted as [Hmin Hsorted].
  assert (HP : pass_inv graph pkg level levels queue).
  { split; [done| | |].
    - intros p Lp Hin. split.
      + rewrite Forall_forall in Hmin. apply Hmin.
        apply list_elem_of_fmap. by exists (p, Lp).
      + apply (Hbound pkg level p Lp); [by left|].
        apply (bfs_queue _ _ _ _ HI). by right.
    - intros n Ln. apply (Hbound pkg level). by left.
    - intros m Lm n Hm He.
      destruct (Hrel m Lm n Hm He) as [[[= -> ->]|Hq]%elem_of_cons | Hn]; auto. }
  destruct (discover_inv root pkg level (default [] (Dict.get graph pkg))
              levels queue) as [HI' Hsub'].
  { destruct HI as [Hroot Hpar Hq]. split; [done..|].
    intros n L Hin. apply Hq. by right. }
  { done. }
  { intros dep. apply edge_get. }
  destruct (discover_front pkg level (default [] (Dict.get graph pkg))
              levels queue HP) as (HP' & Hsub & Hdeps).
  destruct (fold_left _ _ _) as [levels' queue']. simpl in *.
  apply (IH _ _ _ Hbfs HI').
  destruct HP' as [Hsorted' Hlow' Hbound' Hrel']. split; [done| |].
  - intros p Lp n Ln Hp Hn.
    destruct (Hlow' p Lp Hp) as [Hle _]. pose proof (Hbound' n Ln Hn). lia.
  - intros m Lm n Hm He.
    destruct (Hrel' m Lm n Hm He) as [Hq | [-> | Hn]]; [by left| |by right].
    right. destruct He as (deps & Hget & Hin).
    destruct (Hdeps n) as (Ld & Hd & Hle); [by rewrite Hget|].
    exists Ld. split; [done|].
    assert (Lm = level) as ->; [|done].
    apply (lookup_weaken _ _ _ _ Hpkg) in Hsub. congruence.
Qed.

(** A level is the length of a chain of edges from the root. *)
Lemma level_chain root levels queue :
  bfs_inv graph root levels queue →
  ∀ L n, levels !! n = Some L → nsteps (edge graph) L root n.
Proof.
  intros HI. induction L as [|L IH]; intros n Hn.
  - destruct (bfs_parent _ _ _ _ HI n 0 Hn) as [[-> _] | (m & Lm & ? & _)];
      [constructor|done].
  - destruct (bfs_parent _ _ _ _ HI n (S L) Hn)
      as [[_ ?] | (m & Lm & [= <-] & Hm & He)]; [done|].
    eapply nsteps_r; [by apply IH|done].
Qed.

(** No chain of edges from the root is shorter than the level. *)
Lemma chain_level root levels :
  bfs_inv graph root levels [] → bfs_front graph levels [] →
  ∀ k n, nsteps (edge graph) k root n → ∃ L, levels !! n = Some L ∧ L ≤ k.
Proof.
  intros HI HF. induction k as [|k IH]; intros n Hn.
  - inversion Hn; subst. exists 0. split; [apply (bfs_root _ _ _ _ HI)|done].
  - apply nsteps_inv_r in Hn as (m & Hm & He).
    destruct (IH m Hm) as (Lm & HLm & Hle).
    destruct (front_relaxed _ _ _ HF m Lm n HLm He) as [?%elem_of_nil | (Ln & HLn & Hle')];
      [done|].
    exists Ln. split; [done|lia].
Qed.

(** *** The loop ends within the bound *)

Lemma size_list_to_set_le (l : list string) :
  size (list_to_set l : gset string) ≤ length l.
Proof.
  induction l as [|x l IH].
  - rewrite list_to_set_nil, size_empty. done.
  - rewrite list_to_set_cons, size_union_alt, size_singleton. simpl.
    assert (size (list_to_set l ∖ {[x]} : gset string) ≤ size (list_to_set l : gset string))
      by (apply subseteq_size; set_solver).
    lia.
Qed.

Lemma discover_measure level deps : ∀ levels queue,
  (∀ dep, dep ∈ deps → dep ∈ targets graph) →
  let r := fold_left (discover level) deps (levels, queue) in
  measure graph r.1 r.2 = measure graph levels queue.
Proof.
  induction deps as [|dep deps IH]; intros levels queue Hdeps; simpl; [done|].
  assert (Hrest : ∀ d, d ∈ deps → d ∈ targets graph)
    by (intros d Hd; apply Hdeps; by right).
  destruct (levels !! dep) as [L|] eqn:Hdep; [by apply IH|].
  rewrite IH by done. unfold measure.
  rewrite length_app, dom_insert_L. simpl.
  assert (Hin : dep ∈ targets graph ∖ dom levels).
  { apply elem_of_difference. split; [apply Hdeps; by left|].
    by apply not_elem_of_dom. }
  assert (Heq : targets graph ∖ ({[dep]} ∪ dom levels)
                = (targets graph ∖ dom levels) ∖ {[dep]}) by set_solver.
  rewrite Heq, size_difference by set_solver.
  assert (size ({[dep]} : gset string) ≤ size (targets graph ∖ dom levels))
    by (apply subseteq_size; set_solver).
  rewrite size_singleton in *. lia.
Qed.

Lemma bfs_terminates fuel : ∀ levels queue,
  measure graph levels queue ≤ fuel → is_Some (bfs graph fuel levels queue).
Proof.
  induction fuel as [|fuel IH]; intros levels queue Hm.
  - destruct queue as [|[pkg level] queue]; simpl; [done|].
    unfold measure in Hm. simpl in Hm. lia.
  - destruct queue as [|[pkg level] queue]; simpl; [done|].
    pose proof (discover_measure level (default [] (Dict.get graph pkg))
                  levels queue) as Heq.
    destruct (fold_left _ _ _) as [levels' queue']. simpl in Heq.
    apply IH. rewrite Heq.
    + unfold measure in *. simpl in Hm. lia.
    + intros dep Hdep%edge_get. by eapply edge_targets.
Qed.

End diagram_facts.

(** * Results: the graph builder *)

Section builder_claims.
Import Source Builder Examples.

(** The run on [A -> [B]], [B -> [A]]: [A] is fetched, then [B]; the
    edge back to [A] finds it on the path and resets its entry. *)
Lemma cycle_run cfg c fuel :
  cache_ok cfg c → lookup cfg "A" = ["B"] → lookup cfg "B" = ["A"] →
  3 ≤ fuel →
  ∃ st, run cfg fuel "A" c = Done st
        ∧ graph st = [("A", []); ("B", ["A"])]
        ∧ log st = [EvFetch "A"; EvFetch "B"; EvCycle "A"].
Proof.
  intros Hc HA HB Hfuel.
  enough (∃ st, run cfg 3 "A" c = Done st
                ∧ graph st = [("A", []); ("B", ["A"])]
                ∧ log st = [EvFetch "A"; EvFetch "B"; EvCycle "A"])
    as (st & Hrun & Hres).
  { exists st. split; [|done]. by apply (build_fuel_mono cfg 3). }
  unfold run.
  destruct (build_new cfg 2 "A" (fresh c)) as (c1 & Hc1 & ->);
    [done|set_solver|set_solver|].
  rewrite HA, for_each_one.
  destruct (build_new cfg 1 "B" (enter "A" ["B"] c1 (fresh c))) as (c2 & Hc2 & ->);
    [done|simpl; set_solver|simpl; set_solver|].
  rewrite HB, for_each_one.
  rewrite build_cycle by (simpl; set_solver).
  rewrite decide_True by (simpl; set_solver).
  rewrite decide_True by (simpl; set_solver).
  eexists. split; [done|]. by vm_compute.
Qed.

(** C1 (amended). For a source with [A -> [B]] and [B -> [A]], a
    traversal rooted at [A] ends without running out of depth and
    returns exactly [{A: [], B: [A]}]: the node entered again on the
    cyclic edge is the root [A] itself, whose entry is reset to the
    empty list, while [B] keeps the list that was fetched for it. *)
Theorem cycle_resets_reentered_node cfg c fuel :
  cache_ok cfg c → lookup cfg "A" = ["B"] → lookup cfg "B" = ["A"] →
  3 ≤ fuel →
  top_level_graph cfg fuel "A" c = Some [("A", []); ("B", ["A"])]
  ∧ cycles (log (final (run cfg fuel "A" c))) = ["A"]
  ∧ fetches (log (final (run cfg fuel "A" c))) = ["A"; "B"].
Proof.
  intros Hc HA HB Hfuel.
  destruct (cycle_run cfg c fuel Hc HA HB Hfuel) as (st & Hrun & Hg & Hl).
  unfold top_level_graph. rewrite Hrun. simpl. by rewrite Hg, Hl.
Qed.

Lemma cycle_resets_reentered_node_witness :
  cache_ok cfg_cycle None
  ∧ lookup cfg_cycle "A" = ["B"] ∧ lookup cfg_cycle "B" = ["A"] ∧ 3 ≤ 3
  ∧ top_level_graph cfg_cycle 3 "A" None = Some [("A", []); ("B", ["A"])].
Proof.
  assert (Hc : cache_ok cfg_cycle None) by (by left).
  assert (HA : lookup cfg_cycle "A" = ["B"]) by reflexivity.
  assert (HB : lookup cfg_cycle "B" = ["A"]) by reflexivity.
  assert (Hf : 3 ≤ 3) by lia.
  split_and!; [done..|].
  exact (proj1 (cycle_resets_reentered_node cfg_cycle None 3 Hc HA HB Hf)).
Defined.

(** C1, as stated, fails: no run on [A -> [B]], [B -> [A]] returns a
    dictionary with [A: [B]] and [B: []]. *)
Lemma cycle_keeps_root_list_counterexample :
  ¬ ∃ fuel g,
      top_level_graph cfg_cycle fuel "A" None = Some g
      ∧ Dict.get g "A" = Some ["B"] ∧ Dict.get g "B" = Some [].
Proof.
  intros (fuel & g & Hrun & HA & HB).
  destruct (decide (3 ≤ fuel)) as [Hle|Hlt].
  - destruct (cycle_run cfg_cycle None fuel) as (st & Hst & Hg & _);
      [by left|done|done|done|].
    unfold top_level_graph in Hrun. rewrite Hst in Hrun.
    injection Hrun as <-. rewrite Hg in HA. by vm_compute in HA.
  - destruct fuel as [|[|[|fuel]]]; [by vm_compute in Hrun..|lia].
Qed.

(** C2 (amended). When a traversal enters a package [q] that is on the
    path, it records [graph[q] = []] and returns with no lookup and with
    [visited] and [path] as they were; [q] is a member of [visited] at
    that point, since it was added when it was first entered. A later
    entry of a visited package that is off the path returns at once. So
    in a finished run every package reported as cyclic is in [visited],
    was looked up exactly once, and still has the empty list. *)
Theorem cycle_entry_stays_visited cfg root c fuel st p :
  cache_ok cfg c → run cfg fuel root c = Done st → p ∈ cycles (log st) →
  (∀ s f q, Inv cfg root s → q ∈ path s →
      build_dependency_graph cfg (S f) q s = Done (mark_cycle q s)
      ∧ q ∈ visited (mark_cycle q s)
      ∧ visited (mark_cycle q s) = visited s ∧ path (mark_cycle q s) = path s
      ∧ fetches (log (mark_cycle q s)) = fetches (log s)
      ∧ Dict.get (graph (mark_cycle q s)) q = Some [])
  ∧ (∀ s f q, q ∈ visited s → q ∉ path s →
       build_dependency_graph cfg (S f) q s = Done s)
  ∧ p ∈ visited st ∧ lookup_calls (log st) p = 1
  ∧ Dict.get (graph st) p = Some [].
Proof.
  intros Hc Hrun Hp.
  destruct (run_Inv cfg _ _ _ _ Hc Hrun) as (HI & Hpath & Hroot & _).
  assert (Hv : p ∈ visited st) by by apply (inv_cycles _ _ _ HI).
  split_and!.
  - intros s f q Hs Hq. split_and!; try done.
    + by apply build_cycle.
    + simpl. by apply (inv_path _ _ _ Hs).
    + simpl. by rewrite fetches_app, app_nil_r.
    + simpl. apply dict_get_set_eq.
  - intros s f q Hq Hnq. by apply build_seen.
  - done.
  - apply (run_lookup_calls cfg root c fuel st p Hc Hrun).
    by apply (inv_reach _ _ _ HI).
  - rewrite (inv_graph _ _ _ HI) by done. by rewrite decide_True.
Qed.

Lemma cycle_entry_stays_visited_witness :
  let st := final (run cfg_revisit 3 "R" None) in
  cache_ok cfg_revisit None ∧ run cfg_revisit 3 "R" None = Done st
  ∧ "P" ∈ cycles (log st)
  ∧ "P" ∈ visited st ∧ lookup_calls (log st) "P" = 1
  ∧ Dict.get (graph st) "P" = Some [].
Proof.
  intros st.
  assert (Hc : cache_ok cfg_revisit None) by (by left).
  assert (Hrun : run cfg_revisit 3 "R" None = Done st) by (by vm_compute).
  assert (Hp : "P" ∈ cycles (log st)) by (vm_compute; set_solver).
  split_and!; [done..| | |];
    apply (cycle_entry_stays_visited cfg_revisit "R" None 3 st "P" Hc Hrun Hp).
Defined.

(** C2, as stated, fails. With [R -> [P, Q]], [P -> [P]], [Q -> [P]] the
    package [P] is entered on the path and later reached from [Q], off
    the path; it is a member of [visited] when the cycle branch returns,
    it is not looked up a second time, and its entry is not overwritten
    with the list the source has for it. *)
Lemma cycle_entry_refetched_counterexample :
  let s := enter "P" ["P"] None (enter "R" ["P"; "Q"] None (fresh None)) in
  let st := final (run cfg_revisit 3 "R" None) in
  run cfg_revisit 3 "R" None = Done st
  ∧ lookup cfg_revisit "Q" = ["P"]
  ∧ log st = [EvFetch "R"; EvFetch "P"; EvCycle "P"; EvFetch "Q"]
  ∧ build_dependency_graph cfg_revisit 1 "P" s = Done (mark_cycle "P" s)
  ∧ ¬ ("P" ∉ visited (mark_cycle "P" s))
  ∧ ¬ (2 ≤ lookup_calls (log st) "P")
  ∧ Dict.get (graph st) "P" ≠ Some (lookup cfg_revisit "P").
Proof.
  intros s st. split_and!.
  - by vm_compute.
  - reflexivity.
  - by vm_compute.
  - apply build_cycle. subst s. simpl. set_solver.
  - intros H. apply H. subst s. simpl. set_solver.
  - vm_compute. lia.
  - by vm_compute.
Qed.

(** C4. A traversal asks the source exactly once about every package
    the root reaches, however many packages list it, and never about
    any other package. This holds for every source, so in particular
    for every source whose dependency relation is acyclic. *)
Theorem one_lookup_per_reachable_package cfg root c fuel :
  cache_ok cfg c → depth_bound cfg root ≤ fuel →
  ∃ st, run cfg fuel root c = Done st
        ∧ ∀ p, (reach cfg root p → lookup_calls (log st) p = 1)
               ∧ (¬ reach cfg root p → lookup_calls (log st) p = 0).
Proof.
  intros Hc Hfuel. destruct (run_terminates cfg root c fuel Hc Hfuel) as [st Hrun].
  exists st. split; [done|]. intros p. by eapply run_lookup_calls.
Qed.

Lemma one_lookup_per_reachable_package_witness :
  cache_ok cfg_diamond None ∧ depth_bound cfg_diamond "A" ≤ 5
  ∧ ∃ st, run cfg_diamond 5 "A" None = Done st
          ∧ ∀ p, (reach cfg_diamond "A" p → lookup_calls (log st) p = 1)
                 ∧ (¬ reach cfg_diamond "A" p → lookup_calls (log st) p = 0).
Proof.
  assert (Hc : cache_ok cfg_diamond None) by (by left).
  assert (Hf : depth_bound cfg_diamond "A" ≤ 5) by (vm_compute; lia).
  split_and!; [done..|].
  exact (one_lookup_per_reachable_package cfg_diamond "A" None 5 Hc Hf).
Defined.



(** C8. Two traversals from the same root return the same dictionary:
    the same keys in the same order, each with the same list. The second
    starts from fresh [visited], [path] and [graph] and from whatever
    cache the first left; neither that nor the depth allowed matters. *)
Theorem build_twice_same_graph cfg root c fuel1 fuel2 :
  cache_ok cfg c →
  depth_bound cfg root ≤ fuel1 → depth_bound cfg root ≤ fuel2 →
  ∃ st1 st2,
    run cfg fuel1 root c = Done st1
    ∧ run cfg fuel2 root (cache st1) = Done st2
    ∧ graph st2 = graph st1
    ∧ (top_level_graph cfg fuel2 root (cache st1)
       = top_level_graph cfg fuel1 root c).
Proof.
  intros Hc Hf1 Hf2.
  destruct (run_terminates cfg root c fuel1 Hc Hf1) as [st1 Hrun1].
  destruct (run_Inv cfg _ _ _ _ Hc Hrun1) as (_ & _ & _ & Hc1).
  destruct (run_terminates cfg root (cache st1) fuel2 Hc1 Hf2) as [st2 Hrun2].
  destruct (run_deterministic cfg root c (cache st1) fuel1 fuel2 st1 st2)
    as (_ & _ & Hg & _); [done..|].
  exists st1, st2. split_and!; [done..| |].
  - done.
  - unfold top_level_graph. by rewrite Hrun1, Hrun2, Hg.
Qed.

Lemma build_twice_same_graph_witness :
  cache_ok cfg_versioned None
  ∧ depth_bound cfg_versioned "musl-utils" ≤ 4
  ∧ depth_bound cfg_versioned "musl-utils" ≤ 7
  ∧ ∃ st1 st2,
      run cfg_versioned 4 "musl-utils" None = Done st1
      ∧ run cfg_versioned 7 "musl-utils" (cache st1) = Done st2
      ∧ graph st2 = graph st1
      ∧ (top_level_graph cfg_versioned 7 "musl-utils" (cache st1)
         = top_level_graph cfg_versioned 4 "musl-utils" None).
Proof.
  assert (Hc : cache_ok cfg_versioned None) by (by left).
  assert (Hf1 : depth_bound cfg_versioned "musl-utils" ≤ 4) by (vm_compute; lia).
  assert (Hf2 : depth_bound cfg_versioned "musl-utils" ≤ 7) by (vm_compute; lia).
  split_and!; [done..|].
  exact (build_twice_same_graph cfg_versioned "musl-utils" None 4 7 Hc Hf1 Hf2).
Defined.

(** C9. A traversal ends normally for every source: a recursion depth
    of one more than the number of distinct names of the source and the
    root is never exceeded, [path] is empty again at the end, no package
    is looked up twice, and entering a package that is already in
    [visited] causes no lookup. *)
Theorem build_terminates_within_bound cfg root c fuel :
  cache_ok cfg c → depth_bound cfg root ≤ fuel →
  (∃ st, run cfg fuel root c = Done st
         ∧ path st = ∅ ∧ NoDup (fetches (log st)))
  ∧ (∀ f q s, q ∈ visited s →
       ∃ s', build_dependency_graph cfg (S f) q s = Done s'
             ∧ fetches (log s') = fetches (log s)
             ∧ visited s' = visited s).
Proof.
  intros Hc Hfuel. split.
  - destruct (run_terminates cfg root c fuel Hc Hfuel) as [st Hrun].
    destruct (run_Inv cfg _ _ _ _ Hc Hrun) as (HI & Hpath & _).
    exists st. split_and!; [done..|]. apply (inv_nodup _ _ _ HI).
  - intros f q s Hq. destruct (decide (q ∈ path s)) as [Hp|Hp].
    + exists (mark_cycle q s). split_and!; [by apply build_cycle| |done].
      simpl. by rewrite fetches_app, app_nil_r.
    + exists s. split_and!; [by apply build_seen|done..].
Qed.

Lemma build_terminates_within_bound_witness :
  cache_ok cfg_cycle None ∧ depth_bound cfg_cycle "A" ≤ 3
  ∧ ∃ st, run cfg_cycle 3 "A" None = Done st
          ∧ path st = ∅ ∧ NoDup (fetches (log st)).
Proof.
  assert (Hc : cache_ok cfg_cycle None) by (by left).
  assert (Hf : depth_bound cfg_cycle "A" ≤ 3) by (vm_compute; lia).
  split_and!; [done..|].
  exact (proj1 (build_terminates_within_bound cfg_cycle "A" None 3 Hc Hf)).
Defined.

End builder_claims.

(** * Results: the index parser *)

Section source_claims.
Import Source Builder Examples.

(** C3 (what the code does). The pattern does not strip a qualifier: on
    the raw entry [libc.so.6=>1.2.3] the first match ends right after
    the [=], the scan resumes at [>1.2.3], and the version comes out as
    a second dependency name. The index, the lookup and the graph then
    all carry [1.2.3] as a package. *)
Theorem qualifier_leaks_into_dependencies :
  Regex.findall "libc.so.6=>1.2.3" = ["libc.so.6"; "1.2.3"]
  ∧ download_apkindex (response cfg_versioned)
    = Some [("musl-utils", ["libc.so.6"; "1.2.3"])]
  ∧ lookup cfg_versioned "musl-utils" = ["libc.so.6"; "1.2.3"]
  ∧ top_level_graph cfg_versioned 2 "musl-utils" None
    = Some [("musl-utils", ["libc.so.6"; "1.2.3"]); ("libc.so.6", []); ("1.2.3", [])].
Proof. split_and!; by vm_compute. Qed.

End source_claims.

(** * Results: reverse dependencies *)

Section reverse_claims.
Import Reverse Examples.

(** C6. For a dictionary [graph] and a target, the scan returns the keys
    whose list holds the target: all of them, each once, in the order
    of the keys; and the empty list when no key lists the target. *)
Theorem reverse_dependencies_exact graph target :
  Dict.wf graph →
  find_reverse_dependencies graph target
  = filter (λ k, target ∈ default [] (Dict.get graph k)) (Dict.keys graph)
  ∧ NoDup (find_reverse_dependencies graph target)
  ∧ (∀ k, k ∈ find_reverse_dependencies graph target ↔ lists graph target k)
  ∧ ((∀ k, ¬ lists graph target k) → find_reverse_dependencies graph target = []).
Proof.
  intros Hwf.
  assert (Hmem : ∀ k, k ∈ find_reverse_dependencies graph target ↔ lists graph target k).
  { intros k. rewrite find_reverse_keys by done.
    rewrite list_elem_of_filter. unfold lists. split.
    - intros [Hin Hk]. destruct (Dict.get graph k) as [deps|]; simpl in Hin.
      + by exists deps.
      + by apply elem_of_nil in Hin.
    - intros (deps & Hget & Hin). split; [by rewrite Hget|].
      destruct (decide (k ∈ Dict.keys graph)) as [|Hnk]; [done|].
      apply dict_get_None in Hnk. congruence. }
  split_and!; [by apply find_reverse_keys| |done|].
  - rewrite find_reverse_keys by done. by apply NoDup_filter.
  - intros Hnone. apply elem_of_nil_inv. intros k Hk%Hmem. by apply (Hnone k).
Qed.

Lemma reverse_dependencies_exact_witness :
  Dict.wf diamond ∧ find_reverse_dependencies diamond "D" = ["B"; "C"]
  ∧ NoDup (find_reverse_dependencies diamond "D").
Proof.
  assert (Hwf : Dict.wf diamond) by (apply (bool_decide_unpack _); by vm_compute).
  split_and!; [done|reflexivity|].
  exact (proj1 (proj2 (reverse_dependencies_exact diamond "D" Hwf))).
Defined.

End reverse_claims.

(** * Results: the layering and the diagram *)

Section diagram_claims.
Import Diagram Examples.

Lemma compute_levels_total graph : is_Some (compute_levels graph).
Proof.
  unfold compute_levels. destruct (Text.nonempty (root_of graph)); [|done].
  apply bfs_terminates. unfold measure, bfs_bound. simpl.
  assert (size (targets graph ∖ dom ({[root_of graph := 0]} : Levels))
          ≤ size (targets graph)) by (apply subseteq_size; set_solver).
  pose proof (size_list_to_set_le (concat graph.*2)). unfold targets in *. lia.
Qed.

Lemma compute_levels_inv graph levels :
  root_of graph ≠ "" → compute_levels graph = Some levels →
  bfs_inv graph (root_of graph) levels []
  ∧ bfs_front graph levels [].
Proof.
  unfold compute_levels. intros Hroot.
  destruct (Text.nonempty (root_of graph)) eqn:Hne;
    [|by destruct (root_of graph)].
  intros Hbfs.
  assert (HI : bfs_inv graph (root_of graph) {[root_of graph := 0]}
                 [(root_of graph, 0)]).
  { split.
    - apply lookup_singleton_eq.
    - intros n L [-> ->]%lookup_singleton_Some. by left.
    - intros n L [= -> ->]%list_elem_of_singleton. apply lookup_singleton_eq. }
  split.
  - by eapply bfs_inv_loop.
  - eapply bfs_front_loop; [exact Hbfs|exact HI|]. split.
    + repeat constructor.
    + intros p Lp n Ln _ [_ <-]%lookup_singleton_Some. lia.
    + intros m Lm n [<- <-]%lookup_singleton_Some _. left.
      by apply list_elem_of_singleton.
Qed.

(** A level is the length of a chain of edges from the root. *)
Lemma levelled_reachable graph root levels queue :
  bfs_inv graph root levels queue →
  ∀ L n, levels !! n = Some L → reachable graph root n.
Proof.
  intros HI. induction L as [|L IH]; intros n Hn.
  - destruct (bfs_parent _ _ _ _ HI n 0 Hn) as [[-> _] | (m & Lm & ? & _)];
      [apply rtc_refl|done].
  - destruct (bfs_parent _ _ _ _ HI n (S L) Hn) as [[_ ?] | (m & Lm & [= <-] & Hm & He)];
      [done|].
    eapply rtc_r; [by apply IH|done].
Qed.

(** C5 (amended). For a dictionary whose first key is not the empty
    string, the layering ends and gives that first key level 0; every
    other package with a level [L] has [L >= 1] and a parent in the
    graph whose level is [L - 1], so at most [L - 1]; the level of a
    package is the length of a shortest chain of edges from the root;
    and a package has a level exactly when the root reaches it, so one
    the root does not reach has none. *)
Theorem levels_follow_parents graph :
  root_of graph ≠ "" →
  ∃ levels,
    compute_levels graph = Some levels
    ∧ levels !! root_of graph = Some 0
    ∧ (∀ n L, n ≠ root_of graph → levels !! n = Some L →
         1 ≤ L ∧ ∃ m Lm, edge graph m n ∧ levels !! m = Some Lm
                         ∧ S Lm = L ∧ Lm ≤ L - 1)
    ∧ (∀ n L, levels !! n = Some L →
         nsteps (edge graph) L (root_of graph) n
         ∧ ∀ k, nsteps (edge graph) k (root_of graph) n → L ≤ k)
    ∧ (∀ n, reachable graph (root_of graph) n → is_Some (levels !! n))
    ∧ (∀ n, ¬ reachable graph (root_of graph) n → levels !! n = None).
Proof.
  intros Hroot. destruct (compute_levels_total graph) as [levels Hlv].
  destruct (compute_levels_inv graph levels Hroot Hlv) as [HI HF].
  exists levels. split_and!; [done|apply (bfs_root _ _ _ _ HI)| | | |].
  - intros n L Hn HL.
    destruct (bfs_parent _ _ _ _ HI n L HL) as [[-> _] | (m & Lm & -> & Hm & He)];
      [done|].
    split; [lia|]. exists m, Lm. split_and!; [done..|lia].
  - intros n L HL. split; [by eapply level_chain|].
    intros k Hk. destruct (chain_level graph _ _ HI HF k n Hk) as (L' & HL' & Hle).
    congruence.
  - intros n [k Hk]%rtc_nsteps.
    destruct (chain_level graph _ _ HI HF k n Hk) as (L & HL & _). by exists L.
  - intros n Hn. destruct (levels !! n) as [L|] eqn:HL; [|done].
    exfalso. apply Hn. by eapply levelled_reachable.
Qed.

Lemma levels_follow_parents_witness :
  root_of diamond ≠ ""
  ∧ ∃ levels, compute_levels diamond = Some levels
              ∧ levels !! root_of diamond = Some 0.
Proof.
  assert (Hroot : root_of diamond ≠ "") by (by vm_compute).
  split; [done|].
  destruct (levels_follow_parents diamond Hroot) as (levels & Hlv & H0 & _).
  by exists levels.
Defined.

(** C5, as stated, fails on a non-empty dictionary whose first key is
    the empty string: the loop is skipped and the root gets no level. *)
Lemma levels_blank_root_counterexample :
  blank_root ≠ []
  ∧ ¬ ∃ levels, compute_levels blank_root = Some levels
                ∧ levels !! root_of blank_root = Some 0.
Proof.
  split; [done|]. intros (levels & Hlv & H0).
  injection Hlv as <-. by rewrite lookup_empty in H0.
Qed.

(** The rectangle lines of the diagram: one per key, in the order of the
    keys, each the text of line 230 with the colour that the palette has
    at the smaller of the level (0 without a level) and 4. *)
Lemma rectangles_written levels (keys : list string) :
  ∃ rects,
    mapM (rectangle levels) keys = Some rects
    ∧ Forall2 (λ pkg line, ∃ color,
                 colors !! (default 0 (levels !! pkg) `min` 4) = Some color
                 ∧ line = String.concat ""
                            ["rectangle "; dquote; pkg; dquote; " as "; ident pkg;
                             " #"; color; nl])
              keys rects.
Proof.
  assert (Hcol : ∀ pkg, is_Some (colors !! (default 0 (levels !! pkg) `min` 4))).
  { intros pkg. apply lookup_lt_is_Some. simpl. lia. }
  assert (Hrect : ∀ pkg, ∃ color,
    colors !! (default 0 (levels !! pkg) `min` 4) = Some color
    ∧ rectangle levels pkg
      = Some (String.concat ""
                ["rectangle "; dquote; pkg; dquote; " as "; ident pkg;
                 " #"; color; nl])).
  { intros pkg. destruct (Hcol pkg) as [col Hc]. exists col. split; [done|].
    unfold rectangle, color_of, tier.
    change (length colors - 1) with 4. by rewrite Hc. }
  assert (Hsome : is_Some (mapM (rectangle levels) keys)).
  { apply mapM_is_Some, Forall_forall. intros pkg _.
    destruct (Hrect pkg) as (col & _ & Hr). eexists. exact Hr. }
  destruct Hsome as [rects Hrects]. exists rects. split; [done|].
  apply mapM_Some_1 in Hrects.
  eapply Forall2_impl; [exact Hrects|].
  intros pkg line Hline. destruct (Hrect pkg) as (col & Hc & Hr).
  exists col. split; [done|]. congruence.
Qed.

(** C10. The emitter never fails, and the text it returns is the header,
    then one rectangle line per key of the graph in the order of the
    keys, then an empty line, the arrows and the closing line. The
    rectangle line of a package carries the colour that the palette has
    at the smaller of the package's level and 4; a package without a
    level is treated as level 0, and so is the root, so both carry the
    first colour. The index is always below the 5 colours. *)
Theorem tier_is_capped_level graph :
  ∃ levels rects,
    compute_levels graph = Some levels
    ∧ generate_plantuml graph
      = Some (String.concat ""
                ([header] ++ rects ++ [nl] ++ arrows graph ++ ["@enduml"]))
    ∧ Forall2 (λ pkg line, ∃ color,
                 colors !! (default 0 (levels !! pkg) `min` 4) = Some color
                 ∧ line = String.concat ""
                            ["rectangle "; dquote; pkg; dquote; " as "; ident pkg;
                             " #"; color; nl])
              (Dict.keys graph) rects
    ∧ is_Some (generate_plantuml graph)
    ∧ tier levels (root_of graph) = 0
    ∧ ∀ pkg,
        tier levels pkg = default 0 (levels !! pkg) `min` 4
        ∧ (∀ L, levels !! pkg = Some L → tier levels pkg = L `min` 4)
        ∧ (levels !! pkg = None → tier levels pkg = 0)
        ∧ tier levels pkg < length colors
        ∧ color_of levels pkg = colors !! (default 0 (levels !! pkg) `min` 4)
        ∧ is_Some (color_of levels pkg).
Proof.
  destruct (compute_levels_total graph) as [levels Hlv].
  destruct (rectangles_written levels (Dict.keys graph)) as (rects & Hrects & Hlines).
  assert (Hgen : generate_plantuml graph
                 = Some (String.concat ""
                           ([header] ++ rects ++ [nl] ++ arrows graph ++ ["@enduml"]))).
  { unfold generate_plantuml. rewrite Hlv. simpl. by rewrite Hrects. }
  exists levels, rects. split_and!; [done|done|done| | |].
  - rewrite Hgen. by eexists.
  - destruct (decide (root_of graph = "")) as [Hr|Hr].
    + unfold compute_levels in Hlv. rewrite Hr in *. simpl in Hlv.
      injection Hlv as <-. unfold tier. by rewrite lookup_empty.
    + destruct (compute_levels_inv graph levels Hr Hlv) as [HI _].
      unfold tier. by rewrite (bfs_root _ _ _ _ HI).
  - intros pkg. unfold color_of, tier. simpl length.
    split_and!; try done.
    + by intros L ->.
    + by intros ->.
    + lia.
    + apply lookup_lt_is_Some. simpl. lia.
Qed.

End diagram_claims.

(** * Further results: the pattern scan *)

Section runs_facts.
Import Text Regex Runs.

Lemma op_char_not_name c : is_op_char c = true → is_name_char c = false.
Proof.
  unfold is_op_char. rewrite !orb_true_iff, !bool_decide_eq_true.
  intros [[[-> | ->] | ->] | ->]; reflexivity.
Qed.

Lemma span_name_not_name s :
  starts_with_name s = false → span_name s = (EmptyString, s).
Proof. destruct s as [|c s]; simpl; [done|]. by intros ->. Qed.

Lemma span_name_rest s : starts_with_name (span_name s).2 = false.
Proof.
  induction s as [|c s IH]; simpl; [done|].
  destruct (is_name_char c) eqn:Hc; simpl; [|done].
  by destruct (span_name s).
Qed.

Lemma runs_not_name s : starts_with_name s = false → runs s = runs (drop 1 s).
Proof. destruct s as [|c s]; simpl; [done|]. by intros ->. Qed.

(** The first run is what the greedy class takes. *)
Lemma runs_span s :
  runs s
  = (if nonempty (span_name s).1 then [(span_name s).1] else []) ++ runs (span_name s).2.
Proof.
  induction s as [|c s IH]; simpl; [done|].
  destruct (is_name_char c) eqn:Hc; simpl; [|by rewrite Hc].
  unfold cons_run. destruct (starts_with_name s) eqn:Hs.
  - destruct s as [|d s]; [done|]. simpl in Hs. simpl in IH |- *.
    rewrite Hs in IH |- *. destruct (span_name s) as [n r]. simpl in *.
    by rewrite IH.
  - rewrite (span_name_not_name s Hs) in IH |- *. simpl in *.
    by destruct (span_name s).
Qed.

Lemma runs_skip_qualifier s :
  starts_with_name s = false → runs (skip_qualifier s) = runs s.
Proof.
  destruct s as [|c s]; simpl; [done|]. intros Hc. rewrite Hc.
  destruct (is_op_char c); simpl; by rewrite ?Hc.
Qed.

Lemma findall_from_runs fuel : ∀ s,
  String.length s ≤ fuel → findall_from fuel s = runs s.
Proof.
  induction fuel as [|fuel IH]; intros s Hlen.
  - destruct s; [done|simpl in Hlen; lia].
  - destruct s as [|c s]; [done|]. simpl findall_from.
    destruct (match_at (String c s)) as [[g rest]|] eqn:Hm.
    + pose proof (match_at_shorter _ _ _ Hm) as Hshort.
      rewrite IH by (simpl in *; lia).
      unfold match_at in Hm. rewrite (runs_span (String c s)).
      pose proof (span_name_rest (String c s)) as Hrest.
      destruct (span_name (String c s)) as [n r]. simpl in *.
      destruct (nonempty n); [|done]. injection Hm as <- <-.
      by rewrite runs_skip_qualifier.
    + unfold match_at in Hm. rewrite (runs_span (String c s)).
      destruct (span_name (String c s)) as [n r] eqn:Hspan. simpl.
      destruct (nonempty n) eqn:Hn; [done|]. simpl.
      simpl in Hspan. destruct (is_name_char c) eqn:Hc.
      * destruct (span_name s). injection Hspan as <- <-. done.
      * injection Hspan as <- <-. simpl. rewrite Hc. apply IH. simpl in Hlen. lia.
Qed.

Lemma findall_runs s : findall s = runs s.
Proof. by apply findall_from_runs. Qed.

Lemma append_cons c s t : String c s +:+ t = String c (s +:+ t).
Proof. reflexivity. Qed.

Lemma append_nil_l t : "" +:+ t = t.
Proof. reflexivity. Qed.

Lemma append_nil_r s : s +:+ "" = s.
Proof. induction s as [|c s IH]; [done|]. by rewrite append_cons, IH. Qed.

Lemma concat_empty_cons x xs :
  String.concat "" (x :: xs) = x +:+ String.concat "" xs.
Proof. destruct xs; [symmetry; apply append_nil_r|reflexivity]. Qed.

Lemma runs_starts s :
  starts_with_name s = true → ∃ r rs, runs s = r :: rs.
Proof.
  destruct s as [|c s]; simpl; [done|]. intros ->. unfold cons_run.
  destruct (starts_with_name s), (runs s); eauto.
Qed.

Lemma runs_app_sep a c b :
  is_name_char c = false → runs (a +:+ String c b) = runs a ++ runs b.
Proof.
  intros Hc. induction a as [|x a IH].
  { rewrite append_nil_l. simpl. by rewrite Hc. }
  rewrite append_cons. simpl.
  destruct (is_name_char x); [|done]. rewrite IH. unfold cons_run.
  assert (Hstart : starts_with_name (a +:+ String c b) = starts_with_name a).
  { destruct a; [rewrite append_nil_l; simpl; by rewrite Hc|done]. }
  rewrite Hstart. destruct (starts_with_name a) eqn:Ha; [|done].
  by destruct (runs_starts a Ha) as (r & rs & ->).
Qed.

Lemma runs_name s : is_name s = true → runs s = [s].
Proof.
  unfold is_name. intros [Hne Hall]%andb_true_iff.
  induction s as [|c s IH]; [done|]. simpl in *.
  apply andb_true_iff in Hall as [-> Hall]. unfold cons_run.
  destruct s as [|d s]; [done|]. rewrite IH by done.
  simpl in Hall |- *. by apply andb_true_iff in Hall as [-> _].
Qed.

Lemma runs_are_names s d : d ∈ runs s → is_name d = true.
Proof.
  revert d. induction s as [|c s IH]; intros d; simpl.
  { by intros ?%elem_of_nil. }
  destruct (is_name_char c) eqn:Hc; [|by apply IH].
  unfold cons_run. destruct (starts_with_name s).
  - destruct (runs s) as [|r rs] eqn:Hr.
    + intros ->%list_elem_of_singleton. unfold is_name. simpl. by rewrite Hc.
    + intros [-> | Hin]%elem_of_cons.
      * assert (Hrname : is_name r = true) by (apply IH; by left).
        unfold is_name in *. simpl. rewrite Hc. simpl.
        by apply andb_true_iff in Hrname as [_ ->].
      * apply IH. by right.
  - intros [-> | Hin]%elem_of_cons; [|by apply IH].
    unfold is_name. simpl. by rewrite Hc.
Qed.

Lemma runs_concat s : String.concat "" (runs s) = name_chars s.
Proof.
  induction s as [|c s IH]; [done|]. simpl.
  destruct (is_name_char c); [|done]. rewrite <- IH. unfold cons_run.
  destruct (starts_with_name s) eqn:Hs.
  - destruct (runs_starts s Hs) as (r & rs & ->).
    by rewrite !concat_empty_cons.
  - by rewrite concat_empty_cons.
Qed.

(** X1. In an ASCII text a character outside [[\w\.\-]] only
    separates: the names found in a text that contains one are the names
    found before it followed by the names found after it. An operator is
    such a character and is not treated in any other way. *)
Theorem findall_splits_at_separator a c b :
  isascii (a +:+ String c b) = true →
  is_name_char c = false →
  findall (a +:+ String c b) = findall a ++ findall b.
Proof. intros _ Hc. rewrite !findall_runs. by apply runs_app_sep. Qed.

Lemma findall_splits_at_separator_witness :
  isascii ("musl" +:+ String " " "zlib>=1.2") = true
  ∧ is_name_char " " = false
  ∧ findall ("musl" +:+ String " " "zlib>=1.2") = findall "musl" ++ findall "zlib>=1.2".
Proof.
  assert (Ha : isascii ("musl" +:+ String " " "zlib>=1.2") = true) by reflexivity.
  assert (Hc : is_name_char " " = false) by reflexivity.
  split_and!; [done..|].
  exact (findall_splits_at_separator "musl" " " "zlib>=1.2" Ha Hc).
Defined.

(** X2. A text that is one name comes back as that name. When a name is
    followed by an operator, the name is returned and the scan goes on in
    what follows the operator, so a version written there is returned as
    further names instead of being dropped. *)
Theorem findall_name_then_qualifier name op version :
  is_name name = true → is_op_char op = true →
  findall name = [name]
  ∧ findall (name +:+ String op version) = name :: findall version.
Proof.
  intros Hname Hop. rewrite !findall_runs.
  rewrite runs_app_sep by by apply op_char_not_name.
  by rewrite runs_name.
Qed.

Lemma findall_name_then_qualifier_witness :
  is_name "busybox" = true ∧ is_op_char ">" = true
  ∧ findall ("busybox" +:+ String ">" "=1.36") = "busybox" :: findall "=1.36".
Proof.
  assert (Hn : is_name "busybox" = true) by reflexivity.
  assert (Ho : is_op_char ">" = true) by reflexivity.
  split_and!; [done..|].
  exact (proj2 (findall_name_then_qualifier "busybox" ">" "=1.36" Hn Ho)).
Defined.

(** X3. Every string the scan returns from an ASCII text is non-empty
    and made of name characters only, and the strings returned, put
    together in order, are exactly the name characters of the text: the
    scan drops separators and nothing else. *)
Theorem findall_keeps_name_characters s :
  isascii s = true →
  (∀ d, d ∈ findall s → is_name d = true)
  ∧ String.concat "" (findall s) = name_chars s.
Proof.
  intros _. rewrite findall_runs. split; [apply runs_are_names|apply runs_concat].
Qed.

Lemma findall_keeps_name_characters_witness :
  isascii "so:libc.musl-x86_64.so.1 zlib>=1.2" = true
  ∧ String.concat "" (findall "so:libc.musl-x86_64.so.1 zlib>=1.2")
    = "solibc.musl-x86_64.so.1zlib1.2".
Proof.
  assert (Ha : isascii "so:libc.musl-x86_64.so.1 zlib>=1.2" = true) by reflexivity.
  split; [done|].
  rewrite (proj2 (findall_keeps_name_characters _ Ha)). reflexivity.
Defined.

End runs_facts.

(** * Further results: the index parser *)

Section parser_facts.
Import Text Regex Runs Source Invariants.

Lemma dict_set_elem {V} (d : Dict.t V) k v k' v' :
  (k', v') ∈ Dict.set k v d → (k', v') = (k, v) ∨ (k', v') ∈ d.
Proof.
  induction d as [|[k0 v0] d IH]; simpl.
  - intros ->%list_elem_of_singleton. by left.
  - destruct (decide (k0 = k)) as [->|Hne].
    + intros [->|Hin]%elem_of_cons; [by left|]. right. by right.
    + intros [->|Hin]%elem_of_cons; [right; by left|].
      destruct (IH Hin) as [->|Hd]; [by left|]. right. by right.
Qed.

Lemma dict_keys_set_elem {V} (d : Dict.t V) k v k' :
  k' ∈ Dict.keys d → k' ∈ Dict.keys (Dict.set k v d).
Proof.
  intros Hk'. destruct (decide (k ∈ Dict.keys d)) as [Hin|Hnin].
  - by rewrite dict_keys_set_old.
  - rewrite dict_keys_set_new by done. apply elem_of_app. by left.
Qed.

Lemma dict_key_set {V} (d : Dict.t V) k v : k ∈ Dict.keys (Dict.set k v d).
Proof.
  destruct (decide (k ∈ Dict.keys d)) as [Hin|Hnin].
  - by rewrite dict_keys_set_old.
  - rewrite dict_keys_set_new by done. apply elem_of_app. right.
    by apply list_elem_of_singleton.
Qed.

Lemma filter_nonempty_names (l : list string) :
  (∀ d, d ∈ l → is_name d = true) →
  filter (λ d, nonempty d = true) l = l.
Proof.
  induction l as [|x l IH]; intros Hall; [done|].
  rewrite filter_cons_True.
  - f_equal. apply IH. intros d Hd. apply Hall. by right.
  - assert (Hx : is_name x = true) by (apply Hall; by left).
    unfold is_name in Hx. by apply andb_true_iff in Hx as [-> _].
Qed.

Lemma parse_line_inv st line :
  parse_inv st → ∃ st', parse_line st line = Some st' ∧ parse_inv st'.
Proof.
  destruct st as [packages cur]. intros (Hwf & Hcur & Hnames).
  unfold parse_line. simpl in *.
  destruct (startswith "P:" line).
  { eexists. split; [done|]. split_and!; simpl.
    - by apply dict_wf_set.
    - intros pkg [= <-]. apply dict_key_set.
    - intros k deps d [[= -> ->] | Hin]%dict_set_elem; [by intros ?%elem_of_nil|].
      by apply (Hnames k). }
  destruct (startswith "D:" line); [|by eexists].
  destruct cur as [pkg|]; [|by eexists].
  destruct (nonempty pkg); [|by eexists].
  destruct (Dict.get packages pkg) as [old|] eqn:Hget.
  - eexists. split; [done|]. split_and!; simpl.
    + by apply dict_wf_set.
    + intros p [= <-]. apply dict_key_set.
    + intros k deps d [[= -> ->] | Hin]%dict_set_elem; [|by apply (Hnames k)].
      intros [Hold | Hnew]%elem_of_app.
      * apply (Hnames pkg old); [by apply dict_get_Some_elem|done].
      * apply list_elem_of_filter in Hnew as [_ Hnew].
        rewrite findall_runs in Hnew. by apply runs_are_names in Hnew.
  - exfalso. apply dict_get_None in Hget. apply Hget. by apply Hcur.
Qed.

Lemma parse_lines_inv lines : ∀ st,
  parse_inv st → ∃ st', parse_lines lines st = Some st' ∧ parse_inv st'.
Proof.
  induction lines as [|line lines IH]; intros st Hst; simpl; [by eexists|].
  destruct (parse_line_inv st line Hst) as (st1 & -> & Hst1). by apply IH.
Qed.

Lemma parse_lines_app l1 l2 st :
  parse_lines (l1 ++ l2) st = parse_lines l1 st ≫= parse_lines l2.
Proof.
  revert st. induction l1 as [|line l1 IH]; intros st; simpl; [done|].
  destruct (parse_line st line); [apply IH|done].
Qed.

(** X4. Whatever ASCII text is received, parsing it raises nothing and
    yields a dictionary; every dependency name in it is non-empty and
    made of name characters only, so no operator, blank or colon ever
    reaches the graph builder from the index. *)
Theorem download_apkindex_clean content :
  isascii content = true →
  ∃ idx,
    download_apkindex (Some content) = Some idx
    ∧ Dict.wf idx
    ∧ ∀ p d, d ∈ index_lookup (Some idx) p → is_name d = true.
Proof.
  intros _. unfold download_apkindex.
  destruct (parse_lines_inv (Text.split "010" content) (Dict.empty, None))
    as ([idx cur] & -> & Hwf & _ & Hnames).
  { split_and!; simpl.
    - apply NoDup_nil_2.
    - done.
    - by intros k deps d ?%elem_of_nil. }
  exists idx. split_and!; [done..|].
  intros p d. unfold index_lookup. destruct idx as [|e idx'].
  { by intros ?%elem_of_nil. }
  destruct (Dict.get (e :: idx') p) as [deps|] eqn:Hget.
  - intros Hd. apply (Hnames p deps); [by apply dict_get_Some_elem|done].
  - by intros ?%elem_of_nil.
Qed.

Lemma download_apkindex_clean_witness :
  let content := String.concat Examples.newline
                   ["P:musl-utils"; "D:libc.so.6=>1.2.3 !uclibc"; ""] in
  isascii content = true
  ∧ ∃ idx,
      download_apkindex (Some content) = Some idx
      ∧ Dict.wf idx
      ∧ ∀ p d, d ∈ index_lookup (Some idx) p → is_name d = true.
Proof.
  intros content.
  assert (Ha : isascii content = true) by reflexivity.
  split; [done|]. exact (download_apkindex_clean content Ha).
Defined.

Lemma prefix_cons a s1 b s2 :
  String.prefix (String a s1) (String b s2)
  = if ascii_dec a b then String.prefix s1 s2 else false.
Proof. reflexivity. Qed.

Lemma startswith_P pkg : startswith "P:" ("P:" +:+ pkg) = true.
Proof.
  unfold startswith. change ("P:" +:+ pkg) with (String "P" (String ":" pkg)).
  rewrite !prefix_cons.
  destruct (ascii_dec "P" "P"); [|done]. destruct (ascii_dec ":" ":"); [|done].
  by destruct pkg.
Qed.

Lemma startswith_D line :
  startswith "D:" line = true → startswith "P:" line = false.
Proof.
  unfold startswith. destruct line as [|c line]; [done|].
  rewrite !prefix_cons. destruct (ascii_dec "D" c) as [<-|Hne]; [|done].
  intros _. by destruct (ascii_dec "P" "D").
Qed.

(** The dependency lines of one stanza: each appends its names. *)
Lemma parse_dependency_lines pkg ds : ∀ packages old,
  nonempty pkg = true →
  Forall (λ l, startswith "D:" l = true) ds →
  Dict.get packages pkg = Some old →
  ∃ packages',
    parse_lines ds (packages, Some pkg) = Some (packages', Some pkg)
    ∧ Dict.get packages' pkg
      = Some (old ++ concat ((λ l, findall (drop 2 l)) <$> ds)).
Proof.
  induction ds as [|l ds IH]; intros packages old Hpkg Hds Hget.
  { exists packages. simpl. by rewrite app_nil_r. }
  apply Forall_cons in Hds as [Hl Hds].
  assert (Hline : parse_line (packages, Some pkg) l
                  = Some (Dict.set pkg (old ++ findall (drop 2 l)) packages, Some pkg)).
  { unfold parse_line. rewrite (startswith_D l Hl), Hl, Hpkg, Hget.
    rewrite filter_nonempty_names; [done|].
    intros d Hd. rewrite findall_runs in Hd. by apply runs_are_names in Hd. }
  change (parse_lines (l :: ds) (packages, Some pkg))
    with (match parse_line (packages, Some pkg) l with
          | Some st' => parse_lines ds st'
          | None => None
          end).
  rewrite Hline, fmap_cons. simpl concat.
  destruct (IH (Dict.set pkg (old ++ findall (drop 2 l)) packages)
              (old ++ findall (drop 2 l)) Hpkg Hds) as (packages' & -> & Hget').
  { apply dict_get_set_eq. }
  exists packages'. split; [done|]. by rewrite Hget', <- app_assoc.
Qed.

(** X5. A stanza is a [P:] line followed by [D:] lines. Whatever came
    before it in the index, also an earlier stanza of the same name, the
    package ends up with exactly the names of its own [D:] lines, in
    order. *)
Theorem stanza_dependencies before pkg ds :
  nonempty pkg = true →
  Forall (λ l, startswith "D:" l = true) ds →
  ∃ idx,
    parse_lines (before ++ ("P:" +:+ pkg) :: ds) (Dict.empty, None)
    = Some (idx, Some pkg)
    ∧ Dict.get idx pkg = Some (concat ((λ l, findall (drop 2 l)) <$> ds)).
Proof.
  intros Hpkg Hds. rewrite parse_lines_app.
  destruct (parse_lines_inv before (Dict.empty, None)) as ([pk cur] & -> & _).
  { split_and!; simpl; [apply NoDup_nil_2|done|by intros k deps d ?%elem_of_nil]. }
  assert (Hline : parse_line (pk, cur) ("P:" +:+ pkg)
                  = Some (Dict.set pkg [] pk, Some pkg)).
  { unfold parse_line. by rewrite startswith_P. }
  change (Some (pk, cur) ≫= parse_lines (("P:" +:+ pkg) :: ds))
    with (match parse_line (pk, cur) ("P:" +:+ pkg) with
          | Some st' => parse_lines ds st'
          | None => None
          end).
  rewrite Hline.
  destruct (parse_dependency_lines pkg ds (Dict.set pkg [] pk) [] Hpkg Hds)
    as (idx & Hparse & Hget); [apply dict_get_set_eq|].
  exists idx. split; [|done]. exact Hparse.
Qed.

Lemma stanza_dependencies_witness :
  nonempty "zlib" = true
  ∧ Forall (λ l, startswith "D:" l = true) ["D:so:libc.musl"; "D:busybox"]
  ∧ ∃ idx,
      parse_lines (["P:zlib"; "D:old"; ""] ++ ("P:" +:+ "zlib")
                     :: ["D:so:libc.musl"; "D:busybox"]) (Dict.empty, None)
      = Some (idx, Some "zlib")
      ∧ Dict.get idx "zlib" = Some ["so"; "libc.musl"; "busybox"].
Proof.
  assert (Hp : nonempty "zlib" = true) by reflexivity.
  assert (Hd : Forall (λ l, startswith "D:" l = true) ["D:so:libc.musl"; "D:busybox"])
    by (repeat constructor).
  split_and!; [done..|].
  exact (stanza_dependencies ["P:zlib"; "D:old"; ""] "zlib"
           ["D:so:libc.musl"; "D:busybox"] Hp Hd).
Defined.

End parser_facts.

(** * Further results: the two sources *)

Section fetch_facts.
Import Text Source Builder Invariants.

(** Once the cache holds an index, a traversal in real mode reads
    nothing else of its configuration. *)
Lemma build_from_filled_cache cfg cfg' apkindex :
  test_mode cfg = false → test_mode cfg' = false →
  ∀ fuel p st,
    cache st = Some apkindex →
    build_dependency_graph cfg fuel p st = build_dependency_graph cfg' fuel p st
    ∧ ∀ st', build_dependency_graph cfg fuel p st = Done st' →
             cache st' = Some apkindex.
Proof.
  intros Hm Hm'. induction fuel as [|fuel IH]; intros p st Hc; [done|].
  assert (Hloop : ∀ deps s,
    cache s = Some apkindex →
    for_each (build_dependency_graph cfg fuel) deps s
    = for_each (build_dependency_graph cfg' fuel) deps s
    ∧ ∀ s', for_each (build_dependency_graph cfg fuel) deps s = Done s' →
            cache s' = Some apkindex).
  { induction deps as [|d deps IHd]; intros s Hs; simpl.
    - split; [done|]. by intros s' [= <-].
    - destruct (IH d s Hs) as [<- Hkeep].
      destruct (build_dependency_graph cfg fuel d s) as [s1| |]; try done.
      apply IHd. by apply Hkeep. }
  simpl.
  destruct (decide (p ∈ path st)).
  { split; [done|]. by intros st' [= <-]. }
  destruct (decide (p ∈ visited st)).
  { split; [done|]. by intros st' [= <-]. }
  unfold fetch_apk_dependencies. rewrite Hm, Hm', Hc.
  destruct (Hloop (index_lookup apkindex p)
              (enter p (index_lookup apkindex p) (Some apkindex) st))
    as [<- Hkeep]; [done|].
  destruct (for_each _ _ _) as [st2| |]; try done.
  destruct (decide (p ∈ path st2)); [|done].
  split; [done|]. intros st' [= <-]. simpl. by apply Hkeep.
Qed.

(** X6. The index is downloaded once per process and never again,
    whatever repository a later call names. After one call in real mode
    for a first repository, a traversal in real mode for any other
    repository proceeds exactly as the traversal for the first one does:
    the second repository is not read, and with enough depth the graph
    and the output are those a traversal of the first repository gives
    from scratch. The cache still holds the first index afterwards. *)
Theorem later_repository_is_not_read cfg0 cfg q fuel package :
  test_mode cfg0 = false → test_mode cfg = false →
  ∃ c,
    fetch_apk_dependencies cfg0 q None = (lookup cfg0 q, c)
    ∧ c = Some (download_apkindex (response cfg0))
    ∧ run cfg fuel package c = run cfg0 fuel package c
    ∧ (∀ st, run cfg fuel package c = Done st → cache st = c)
    ∧ (depth_bound cfg0 package ≤ fuel →
       ∃ st st0,
         run cfg fuel package c = Done st
         ∧ run cfg0 fuel package None = Done st0
         ∧ same_objects st st0).
Proof.
  intros Hm0 Hm. exists (Some (download_apkindex (response cfg0))).
  assert (Hstale : run cfg fuel package (Some (download_apkindex (response cfg0)))
                   = run cfg0 fuel package (Some (download_apkindex (response cfg0)))).
  { unfold run.
    by apply (build_from_filled_cache cfg cfg0 (download_apkindex (response cfg0))
                Hm Hm0). }
  split_and!; [|done|exact Hstale| |].
  - unfold fetch_apk_dependencies, lookup. by rewrite Hm0.
  - intros st Hrun. unfold run in Hrun.
    by apply (build_from_filled_cache cfg cfg0 (download_apkindex (response cfg0))
                Hm Hm0 fuel package (fresh (Some (download_apkindex (response cfg0)))))
      in Hrun.
  - intros Hfuel.
    destruct (run_terminates cfg0 package (Some (download_apkindex (response cfg0)))
                fuel) as [st Hst]; [by right|done|].
    destruct (run_terminates cfg0 package None fuel) as [st0 Hst0];
      [by left|done|].
    exists st, st0. split_and!; [by rewrite Hstale|done|].
    eapply (run_deterministic cfg0 package); [| |exact Hst|exact Hst0].
    + by right.
    + by left.
Qed.

Lemma later_repository_is_not_read_witness :
  test_mode Examples.cfg_versioned = false ∧ test_mode Examples.cfg_offline = false
  ∧ ∃ c,
      fetch_apk_dependencies Examples.cfg_versioned "zlib" None
      = (lookup Examples.cfg_versioned "zlib", c)
      ∧ top_level_graph Examples.cfg_offline 7 "musl-utils" c
        = top_level_graph Examples.cfg_versioned 7 "musl-utils" c
      ∧ top_level_graph Examples.cfg_offline 7 "musl-utils" None
        ≠ top_level_graph Examples.cfg_versioned 7 "musl-utils" None.
Proof.
  assert (Hm0 : test_mode Examples.cfg_versioned = false) by reflexivity.
  assert (Hm : test_mode Examples.cfg_offline = false) by reflexivity.
  split_and!; [done..|].
  destruct (later_repository_is_not_read Examples.cfg_versioned Examples.cfg_offline
              "zlib" 7 "musl-utils" Hm0 Hm) as (c & Hfetch & Hc & Hrun & _).
  exists c. split_and!; [done| |].
  - unfold top_level_graph. by rewrite Hrun.
  - vm_compute. discriminate.
Defined.

Lemma line_package_skipped raw :
  negb (nonempty (strip raw)) || negb (contains ":" (strip raw)) = true →
  line_package raw = None.
Proof. unfold line_package. by intros ->. Qed.

Lemma line_package_read raw :
  negb (nonempty (strip raw)) || negb (contains ":" (strip raw)) = false →
  line_package raw = Some (split_once ":" (strip raw)).1.
Proof. unfold line_package. by intros ->. Qed.

Lemma scan_test_lines_find package lines :
  scan_test_lines package lines
  = match list_find (λ raw, line_package raw = Some package) lines with
    | Some (_, raw) => line_dependencies raw
    | None => []
    end.
Proof.
  induction lines as [|raw lines IH]; [done|].
  cbn [list_find scan_test_lines].
  assert (Hrest : scan_test_lines package lines
                  = match prod_map S id <$>
                          list_find (λ raw, line_package raw = Some package) lines with
                    | Some (_, raw) => line_dependencies raw
                    | None => []
                    end).
  { rewrite IH. by destruct (list_find _ lines) as [[i r]|]. }
  destruct (negb (nonempty (strip raw)) || negb (contains ":" (strip raw))) eqn:Hskip.
  - rewrite decide_False; [done|]. by rewrite (line_package_skipped raw Hskip).
  - pose proof (line_package_read raw Hskip) as Hread.
    unfold line_dependencies.
    destruct (split_once ":" (strip raw)) as [pkg deps_str] eqn:Hsplit.
    simpl in Hread.
    destruct (decide (pkg = package)) as [->|Hne].
    + rewrite decide_True by done. by rewrite ?Hsplit.
    + rewrite decide_False; [done|]. rewrite Hread. congruence.
Qed.

Lemma first_matching_line_wins_aux package file :
  get_test_dependencies package file
  = match file with
    | Some lines =>
        match list_find (λ raw, line_package raw = Some package) lines with
        | Some (_, raw) => line_dependencies raw
        | None => []
        end
    | None => []
    end.
Proof. destruct file as [lines|]; [apply scan_test_lines_find|done]. Qed.

(** X7. In test mode, with a fixture file in ASCII, the answer is read
    off the first line of the file that is about the package (after
    stripping: not blank, with a colon, and with exactly the package
    before the first colon); later lines about the same package are
    never read. Without such a line, or without the file, the answer is
    empty. *)
Theorem first_matching_line_wins package file :
  (∀ lines raw, file = Some lines → raw ∈ lines → isascii raw = true) →
  get_test_dependencies package file
  = match file with
    | Some lines =>
        match list_find (λ raw, line_package raw = Some package) lines with
        | Some (_, raw) => line_dependencies raw
        | None => []
        end
    | None => []
    end.
Proof. intros _. apply first_matching_line_wins_aux. Qed.

Lemma first_matching_line_wins_witness :
  let lines := ["# fixture"; " A : B "; "A:B, C ,"; "A:D"] in
  (∀ lines' raw, Some lines = Some lines' → raw ∈ lines' → isascii raw = true)
  ∧ get_test_dependencies "A" (Some lines) = ["B"; "C"]
  ∧ get_test_dependencies "A " (Some lines) = ["B"].
Proof.
  intros lines.
  assert (Ha : ∀ lines' raw,
            Some lines = Some lines' → raw ∈ lines' → isascii raw = true).
  { intros lines' raw [= <-] Hin. unfold lines in Hin.
    repeat (apply elem_of_cons in Hin as [->|Hin]; [reflexivity|]).
    by apply elem_of_nil in Hin. }
  split_and!; [exact Ha| |].
  - rewrite (first_matching_line_wins "A" (Some lines) Ha). reflexivity.
  - rewrite (first_matching_line_wins "A " (Some lines) Ha). reflexivity.
Defined.

Lemma lstrip_starts s : starts_nonspace (lstrip s) = true.
Proof.
  induction s as [|c s IH]; simpl; [done|].
  destruct (is_space c) eqn:Hc; [done|]. simpl. by rewrite Hc.
Qed.

Lemma lstrip_id s : starts_nonspace s = true → lstrip s = s.
Proof. destruct s as [|c s]; simpl; [done|]. by destruct (is_space c). Qed.

Lemma rstrip_starts s : starts_nonspace s = true → starts_nonspace (rstrip s) = true.
Proof.
  destruct s as [|c s]; simpl; [done|]. intros Hc.
  destruct (rstrip s); simpl; [|done].
  destruct (is_space c) eqn:E; simpl in *; [done|by rewrite E].
Qed.

Lemma rstrip_idem s : rstrip (rstrip s) = rstrip s.
Proof.
  induction s as [|c s IH]; simpl; [done|].
  destruct (rstrip s) as [|d r] eqn:Hr.
  - destruct (is_space c) eqn:Hc; simpl; [done|]. by rewrite Hc.
  - change (rstrip (String c (String d r))) with
      (match rstrip (String d r) with
       | EmptyString => if is_space c then EmptyString else String c EmptyString
       | r' => String c r'
       end).
    by rewrite IH.
Qed.

Lemma strip_idem s : strip (strip s) = strip s.
Proof.
  unfold strip. rewrite (lstrip_id (rstrip (lstrip s))).
  - apply rstrip_idem.
  - apply rstrip_starts, lstrip_starts.
Qed.

Lemma contains_lstrip c s : contains c (lstrip s) = true → contains c s = true.
Proof.
  induction s as [|x s IH]; simpl; [done|].
  destruct (is_space x); [|done]. intros H%IH. rewrite H. apply orb_true_r.
Qed.

Lemma contains_rstrip c s : contains c (rstrip s) = true → contains c s = true.
Proof.
  induction s as [|x s IH]; simpl; [done|].
  destruct (rstrip s) as [|d r] eqn:Hr.
  - destruct (is_space x); simpl; [done|]. rewrite orb_false_r. by intros ->.
  - simpl. intros [->|H]%orb_true_iff; [done|].
    simpl in IH. rewrite IH by done. apply orb_true_r.
Qed.

Lemma split_no_separator sep s x :
  x ∈ Text.split sep s → contains sep x = false.
Proof.
  revert x. induction s as [|c s IH]; intros x; simpl.
  - by intros ->%list_elem_of_singleton.
  - destruct (decide (c = sep)) as [->|Hne].
    + intros [->|Hin]%elem_of_cons; [done|by apply IH].
    + destruct (Text.split sep s) as [|w ws] eqn:Hsplit.
      * intros ->%list_elem_of_singleton. simpl.
        by rewrite bool_decide_eq_false_2.
      * intros [->|Hin]%elem_of_cons.
        -- simpl. rewrite bool_decide_eq_false_2 by done. apply IH. by left.
        -- apply IH. by right.
Qed.

(** X8. Every name read from the fixture file is non-empty, has no
    blank at either end and contains no comma. *)
Theorem test_dependencies_are_trimmed package file d :
  d ∈ get_test_dependencies package file →
  nonempty d = true ∧ strip d = d ∧ contains "," d = false.
Proof.
  rewrite first_matching_line_wins_aux. intros Hd.
  assert (Hin : ∃ raw, d ∈ line_dependencies raw).
  { destruct file as [lines|]; [|by apply elem_of_nil in Hd].
    destruct (list_find _ lines) as [[i raw]|]; [by exists raw|].
    by apply elem_of_nil in Hd. }
  destruct Hin as (raw & Hraw). unfold line_dependencies in Hraw.
  apply list_elem_of_fmap in Hraw as (x & -> & Hx).
  apply list_elem_of_filter in Hx as [Hne Hx]. split_and!; [done|apply strip_idem|].
  destruct (contains "," (strip x)) eqn:Hc; [|done].
  apply contains_rstrip, contains_lstrip in Hc.
  by rewrite (split_no_separator _ _ _ Hx) in Hc.
Qed.

End fetch_facts.

(** * Further results: the graph that is built *)

Section graph_facts.
Import Source Builder Invariants.
Variable cfg : Config.

Lemma Each_extends deps st st' :
  Each Extends deps st st' → ∃ k, log st' = log st ++ k.
Proof.
  induction 1 as [st|d rest st st1 st2 [[k1 Hk1] _] _ [k2 Hk2]].
  - exists []. by rewrite app_nil_r.
  - exists (k1 ++ k2). by rewrite Hk2, Hk1, app_assoc.
Qed.

Lemma build_extends fuel p st st' :
  cache_ok cfg (cache st) →
  build_dependency_graph cfg fuel p st = Done st' → Extends p st st'.
Proof.
  intros Hc Hrun.
  refine (proj1 (build_Done_ind cfg Extends _ _ _ fuel p st st' Hc Hrun)).
  - intros q s Hq. split; [by eexists|done].
  - intros q s Hq Hv. split; [|done]. exists []. by rewrite app_nil_r.
  - intros q s c s2 Hq Hv [k Hk]%Each_extends _. simpl in Hk. split.
    + exists ([EvFetch q] ++ k). simpl. by rewrite Hk, <- app_assoc.
    + intros _ _. exists k. simpl. by rewrite Hk, <- app_assoc.
Qed.

Lemma Each_sound deps st st' :
  Each (Sound cfg) deps st st' →
  (∀ d a, d ∈ deps → a ∈ path st → tc (depends cfg) a d) →
  path st' = path st
  ∧ ∀ q, q ∈ cycles (log st') → q ∈ cycles (log st) ∨ tc (depends cfg) q q.
Proof.
  induction 1 as [st|d rest st st1 st2 Hd Hrest IH]; intros Hpath.
  - split; [done|]. by left.
  - destruct Hd as [Hp1 Hc1]; [intros a; apply Hpath; by left|].
    destruct IH as [Hp2 Hc2].
    { intros d' a Hd' Ha. apply Hpath; [by right|by rewrite <- Hp1]. }
    split; [congruence|]. intros q [Hq | Hq]%Hc2; [by apply Hc1|by right].
Qed.

Lemma build_sound fuel p st st' :
  cache_ok cfg (cache st) →
  build_dependency_graph cfg fuel p st = Done st' → Sound cfg p st st'.
Proof.
  intros Hc Hrun.
  refine (proj1 (build_Done_ind cfg (Sound cfg) _ _ _ fuel p st st' Hc Hrun)).
  - intros q s Hq Hpath. split; [done|]. simpl. rewrite cycles_app. simpl.
    intros r [Hr | ->%list_elem_of_singleton]%elem_of_app; [by left|].
    right. by apply Hpath.
  - intros q s Hq Hv Hpath. split; [done|]. by left.
  - intros q s c s2 Hq Hv HE Hq2 Hpath.
    apply Each_sound in HE as [Hp2 Hc2].
    + split.
      * simpl in *. rewrite Hp2. set_solver.
      * simpl in *. rewrite cycles_app in Hc2. simpl in Hc2.
        by rewrite app_nil_r in Hc2.
    + simpl. intros d a Hd [->%elem_of_singleton | Ha]%elem_of_union.
      * by apply tc_once.
      * eapply tc_r; [by apply Hpath|done].
Qed.

Lemma run_first_key root c fuel st :
  cache_ok cfg c → run cfg fuel root c = Done st →
  ∃ ks, Dict.keys (graph st) = root :: ks.
Proof.
  intros Hc Hrun. destruct (run_Inv cfg _ _ _ _ Hc Hrun) as (HI & _).
  destruct (build_extends fuel root (fresh c) st Hc Hrun) as [_ Hfirst].
  destruct Hfirst as [k Hk]; [set_solver..|]. simpl in Hk.
  exists (fetches k). by rewrite (inv_keys _ _ _ HI), Hk.
Qed.

Lemma run_keys_reach root c fuel st k :
  cache_ok cfg c → run cfg fuel root c = Done st →
  k ∈ Dict.keys (graph st) ↔ reach cfg root k.
Proof.
  intros Hc Hrun. destruct (run_Inv cfg _ _ _ _ Hc Hrun) as (HI & Hpath & Hroot & _).
  rewrite (inv_keys _ _ _ HI), (inv_fetched _ _ _ HI). split.
  - apply (inv_reach _ _ _ HI).
  - by apply closed_reach.
Qed.

Lemma run_no_dangling root c fuel st k deps d :
  cache_ok cfg c → run cfg fuel root c = Done st →
  Dict.get (graph st) k = Some deps → d ∈ deps → d ∈ Dict.keys (graph st).
Proof.
  intros Hc Hrun Hget Hd.
  destruct (run_Inv cfg _ _ _ _ Hc Hrun) as (HI & Hpath & Hroot & _).
  assert (Hk : k ∈ visited st).
  { apply (inv_fetched _ _ _ HI). rewrite <- (inv_keys _ _ _ HI).
    destruct (decide (k ∈ Dict.keys (graph st))) as [|Hn]; [done|].
    apply dict_get_None in Hn. congruence. }
  rewrite (inv_graph _ _ _ HI k Hk) in Hget. injection Hget as <-.
  destruct (decide (k ∈ cycles (log st))); [by apply elem_of_nil in Hd|].
  rewrite (inv_keys _ _ _ HI), (inv_fetched _ _ _ HI).
  apply (inv_closed _ _ _ HI k d); [done|rewrite Hpath; set_solver|done].
Qed.

Lemma run_cycles_sound root c fuel st q :
  cache_ok cfg c → run cfg fuel root c = Done st →
  q ∈ cycles (log st) → tc (depends cfg) q q.
Proof.
  intros Hc Hrun Hq.
  destruct (build_sound fuel root (fresh c) st Hc Hrun) as [_ Hsound].
  { simpl. set_solver. }
  destruct (Hsound q Hq) as [?%elem_of_nil|]; done.
Qed.

(** X9. The keys of the graph a traversal returns are the packages in
    the order in which they were first looked up; no key occurs twice;
    the first key is the root; and the keys are exactly the packages the
    root reaches in the source. *)
Theorem graph_keys_are_reachable_packages root c fuel st :
  cache_ok cfg c → run cfg fuel root c = Done st →
  Dict.wf (graph st)
  ∧ Dict.keys (graph st) = fetches (log st)
  ∧ Diagram.root_of (graph st) = root
  ∧ ∀ k, k ∈ Dict.keys (graph st) ↔ reach cfg root k.
Proof.
  intros Hc Hrun. destruct (run_Inv cfg _ _ _ _ Hc Hrun) as (HI & _).
  split_and!.
  - unfold Dict.wf. rewrite (inv_keys _ _ _ HI). apply (inv_nodup _ _ _ HI).
  - apply (inv_keys _ _ _ HI).
  - destruct (run_first_key root c fuel st Hc Hrun) as [ks Hks].
    unfold Diagram.root_of. by rewrite Hks.
  - intros k. by eapply run_keys_reach.
Qed.

(** X10. In the graph a traversal returns, a package the root reaches
    has the list the source gives for it, unless it was reported as
    cyclic, in which case it has the empty list; a package the root does
    not reach has no entry; and every name in a list is itself a key. *)
Theorem graph_values_are_lookups root c fuel st :
  cache_ok cfg c → run cfg fuel root c = Done st →
  (∀ p, reach cfg root p →
        Dict.get (graph st) p
        = Some (if decide (p ∈ cycles (log st)) then [] else lookup cfg p))
  ∧ (∀ p, ¬ reach cfg root p → Dict.get (graph st) p = None)
  ∧ (∀ k deps d, Dict.get (graph st) k = Some deps → d ∈ deps →
                 d ∈ Dict.keys (graph st)).
Proof.
  intros Hc Hrun.
  destruct (run_Inv cfg _ _ _ _ Hc Hrun) as (HI & Hpath & Hroot & _).
  split_and!.
  - intros p Hp. apply (inv_graph _ _ _ HI). by eapply closed_reach.
  - intros p Hp. apply dict_get_None. by rewrite (run_keys_reach root c fuel st p).
  - intros k deps d. by eapply run_no_dangling.
Qed.

(** X11. A package is reported as cyclic only if the root reaches it and
    it depends on itself through one or more edges of the source. *)
Theorem cycle_reports_are_sound root c fuel st q :
  cache_ok cfg c → run cfg fuel root c = Done st →
  q ∈ cycles (log st) →
  reach cfg root q ∧ tc (depends cfg) q q.
Proof.
  intros Hc Hrun Hq. destruct (run_Inv cfg _ _ _ _ Hc Hrun) as (HI & _).
  split; [|by eapply run_cycles_sound].
  apply (inv_reach _ _ _ HI). by apply (inv_cycles _ _ _ HI).
Qed.

(** X12. When no package the root reaches depends on itself, the
    traversal reports no cycle and the graph it returns is the source
    restricted to the packages the root reaches. *)
Theorem acyclic_graph_is_the_source root c fuel st :
  cache_ok cfg c → run cfg fuel root c = Done st →
  acyclic_from cfg root →
  cycles (log st) = []
  ∧ (∀ p, reach cfg root p → Dict.get (graph st) p = Some (lookup cfg p))
  ∧ (∀ p, ¬ reach cfg root p → Dict.get (graph st) p = None).
Proof.
  intros Hc Hrun Hacyc.
  destruct (run_Inv cfg _ _ _ _ Hc Hrun) as (HI & Hpath & Hroot & _).
  assert (Hnone : cycles (log st) = []).
  { apply elem_of_nil_inv. intros q Hq.
    apply (Hacyc q); [|by eapply run_cycles_sound].
    apply (inv_reach _ _ _ HI). by apply (inv_cycles _ _ _ HI). }
  split_and!; [done| |].
  - intros p Hp. rewrite (inv_graph _ _ _ HI) by by eapply closed_reach.
    rewrite Hnone. rewrite decide_False; [done|]. by intros ?%elem_of_nil.
  - intros p Hp. apply dict_get_None. by rewrite (run_keys_reach root c fuel st p).
Qed.

End graph_facts.

Section graph_witnesses.
Import Source Builder Invariants Examples Samples.

Lemma acyclic_by_rank cfg root (rank : string → nat) :
  (∀ a b, depends cfg a b → rank b < rank a) → acyclic_from cfg root.
Proof.
  intros Hrank p _ Hcycle.
  assert (Hlt : ∀ a b, tc (depends cfg) a b → rank b < rank a).
  { induction 1 as [a b Hab|a b d Hab _ IH]; [by apply Hrank|].
    apply Hrank in Hab. lia. }
  apply Hlt in Hcycle. lia.
Qed.

Lemma diamond_rank_decreases a b :
  depends cfg_diamond a b → diamond_rank b < diamond_rank a.
Proof.
  unfold depends. intros Hb.
  destruct (decide (a = "A")) as [->|HA].
  { change (lookup cfg_diamond "A") with ["B"; "C"] in Hb.
    apply elem_of_cons in Hb as [->|Hb]; [vm_compute; lia|].
    apply list_elem_of_singleton in Hb as ->. vm_compute; lia. }
  destruct (decide (a = "B")) as [->|HB].
  { change (lookup cfg_diamond "B") with ["D"] in Hb.
    apply list_elem_of_singleton in Hb as ->. vm_compute; lia. }
  destruct (decide (a = "C")) as [->|HC].
  { change (lookup cfg_diamond "C") with ["D"] in Hb.
    apply list_elem_of_singleton in Hb as ->. vm_compute; lia. }
  rewrite (unknown_lookup cfg_diamond a) in Hb; [by apply elem_of_nil in Hb|].
  intros raw Hraw. repeat (apply elem_of_cons in Hraw as [->|Hraw]; [by vm_compute|]).
  by apply elem_of_nil in Hraw.
Qed.

Lemma diamond_acyclic : acyclic_from cfg_diamond "A".
Proof. apply (acyclic_by_rank _ _ diamond_rank), diamond_rank_decreases. Qed.

Lemma test_dependencies_are_trimmed_witness :
  "B" ∈ get_test_dependencies "A" (Some [" A: B , C "])
  ∧ Text.nonempty "B" = true ∧ Text.strip "B" = "B" ∧ Text.contains "," "B" = false.
Proof.
  assert (Hin : "B" ∈ get_test_dependencies "A" (Some [" A: B , C "]))
    by (apply elem_of_cons; by left).
  split; [done|].
  exact (test_dependencies_are_trimmed "A" (Some [" A: B , C "]) "B" Hin).
Defined.

Lemma graph_keys_are_reachable_packages_witness :
  let st := final (run cfg_diamond 5 "A" None) in
  cache_ok cfg_diamond None ∧ run cfg_diamond 5 "A" None = Done st
  ∧ Dict.wf (graph st)
  ∧ Dict.keys (graph st) = fetches (log st)
  ∧ Diagram.root_of (graph st) = "A"
  ∧ ∀ k, k ∈ Dict.keys (graph st) ↔ reach cfg_diamond "A" k.
Proof.
  intros st.
  assert (Hc : cache_ok cfg_diamond None) by (by left).
  assert (Hrun : run cfg_diamond 5 "A" None = Done st) by (by vm_compute).
  split_and!; [done..| | | |];
    apply (graph_keys_are_reachable_packages cfg_diamond "A" None 5 st Hc Hrun).
Defined.

Lemma graph_values_are_lookups_witness :
  let st := final (run cfg_revisit 3 "R" None) in
  cache_ok cfg_revisit None ∧ run cfg_revisit 3 "R" None = Done st
  ∧ ∀ k deps d, Dict.get (graph st) k = Some deps → d ∈ deps →
                d ∈ Dict.keys (graph st).
Proof.
  intros st.
  assert (Hc : cache_ok cfg_revisit None) by (by left).
  assert (Hrun : run cfg_revisit 3 "R" None = Done st) by (by vm_compute).
  split_and!; [done..|].
  apply (graph_values_are_lookups cfg_revisit "R" None 3 st Hc Hrun).
Defined.

Lemma cycle_reports_are_sound_witness :
  let st := final (run cfg_cycle 3 "A" None) in
  cache_ok cfg_cycle None ∧ run cfg_cycle 3 "A" None = Done st
  ∧ "A" ∈ cycles (log st)
  ∧ reach cfg_cycle "A" "A" ∧ tc (depends cfg_cycle) "A" "A".
Proof.
  intros st.
  assert (Hc : cache_ok cfg_cycle None) by (by left).
  assert (Hrun : run cfg_cycle 3 "A" None = Done st) by (by vm_compute).
  assert (Hq : "A" ∈ cycles (log st)) by (vm_compute; set_solver).
  split_and!; [done..| |];
    apply (cycle_reports_are_sound cfg_cycle "A" None 3 st "A" Hc Hrun Hq).
Defined.

Lemma acyclic_graph_is_the_source_witness :
  let st := final (run cfg_diamond 5 "A" None) in
  cache_ok cfg_diamond None ∧ run cfg_diamond 5 "A" None = Done st
  ∧ acyclic_from cfg_diamond "A"
  ∧ cycles (log st) = []
  ∧ (∀ p, reach cfg_diamond "A" p →
          Dict.get (graph st) p = Some (lookup cfg_diamond p)).
Proof.
  intros st.
  assert (Hc : cache_ok cfg_diamond None) by (by left).
  assert (Hrun : run cfg_diamond 5 "A" None = Done st) by (by vm_compute).
  pose proof diamond_acyclic as Hacyc.
  split_and!; [done..| |];
    apply (acyclic_graph_is_the_source cfg_diamond "A" None 5 st Hc Hrun Hacyc).
Defined.

End graph_witnesses.

(** * Further results: what the later stages do with a built graph *)

Section pipeline_facts.
Import Source Builder Reverse Diagram Invariants.
Variable cfg : Config.

Lemma find_reverse_built root c fuel st target k :
  cache_ok cfg c → run cfg fuel root c = Done st →
  k ∈ find_reverse_dependencies (graph st) target
  ↔ reach cfg root k ∧ target ∈ lookup cfg k ∧ k ∉ cycles (log st).
Proof.
  intros Hc Hrun.
  destruct (run_Inv cfg _ _ _ _ Hc Hrun) as (HI & Hpath & Hroot & _).
  assert (Hwf : Dict.wf (graph st)).
  { unfold Dict.wf. rewrite (inv_keys _ _ _ HI). apply (inv_nodup _ _ _ HI). }
  rewrite find_reverse_keys, list_elem_of_filter by done.
  rewrite (run_keys_reach cfg root c fuel st k Hc Hrun). split.
  - intros [Hin Hk]. split; [done|].
    rewrite (inv_graph _ _ _ HI) in Hin by by eapply closed_reach.
    simpl in Hin. destruct (decide (k ∈ cycles (log st))); [|done].
    by apply elem_of_nil in Hin.
  - intros (Hk & Hin & Hcyc). split; [|done].
    rewrite (inv_graph _ _ _ HI) by by eapply closed_reach.
    simpl. by rewrite decide_False.
Qed.

(** X13. On the graph a traversal returns, the packages found to depend
    on a target are the packages the root reaches whose list in the
    source holds the target, except those reported as cyclic, whose
    lists were emptied. *)
Theorem reverse_dependencies_of_built_graph root c fuel st target k :
  cache_ok cfg c → run cfg fuel root c = Done st →
  k ∈ find_reverse_dependencies (graph st) target
  ↔ reach cfg root k ∧ target ∈ lookup cfg k ∧ k ∉ cycles (log st).
Proof. apply find_reverse_built. Qed.

(** X14. The program asks which packages of the graph depend on the
    root itself. The answer is non-empty only if the root depends on
    itself through one or more edges of the source. *)
Theorem reverse_of_root_needs_cycle root c fuel st :
  cache_ok cfg c → run cfg fuel root c = Done st →
  find_reverse_dependencies (graph st) root ≠ [] →
  tc (depends cfg) root root.
Proof.
  intros Hc Hrun Hne.
  destruct (find_reverse_dependencies (graph st) root) as [|k ks] eqn:Hrev; [done|].
  assert (Hk : k ∈ find_reverse_dependencies (graph st) root)
    by (rewrite Hrev; by left).
  apply (find_reverse_built root c fuel st root k Hc Hrun) in Hk as (Hreach & Hin & _).
  eapply tc_rtc_l; [exact Hreach|]. by apply tc_once.
Qed.

Lemma arrows_length_aux (g : Graph) : ∀ g' : Graph,
  (∀ k deps d, (k, deps) ∈ g' → d ∈ deps → Dict.mem g d = true) →
  length (g' ≫= λ '(pkg, deps),
            deps ≫= λ dep,
              if Dict.mem g dep
              then [String.concat "" [ident pkg; " --> "; ident dep; nl]]
              else [])
  = length (concat g'.*2).
Proof.
  induction g' as [|[pkg deps] g' IH]; intros Hall; [done|].
  rewrite bind_cons, fmap_cons, length_app. simpl concat. rewrite length_app.
  rewrite IH by (intros k ds d Hk; apply (Hall k ds d); by right). f_equal.
  assert (Hdeps : ∀ d, d ∈ deps → Dict.mem g d = true)
    by (intros d; apply (Hall pkg deps d); by left).
  clear IH Hall. induction deps as [|d deps IHd]; [done|].
  rewrite bind_cons, length_app, IHd by (intros d' Hd'; apply Hdeps; by right).
  by rewrite (Hdeps d) by by left.
Qed.

(** X15. For the graph a traversal returns, the emitter draws every
    stored edge: the test that the target of an edge is a key never
    drops one, so there are as many arrows as there are names in the
    lists of the graph. *)
Theorem every_edge_of_built_graph_is_drawn root c fuel st :
  cache_ok cfg c → run cfg fuel root c = Done st →
  length (arrows (graph st)) = length (concat (graph st).*2).
Proof.
  intros Hc Hrun. unfold arrows. apply arrows_length_aux.
  intros k deps d Hin Hd. apply dict_mem_spec.
  destruct (run_Inv cfg _ _ _ _ Hc Hrun) as (HI & _).
  eapply (run_no_dangling cfg root c fuel st k deps d Hc Hrun); [|done].
  apply dict_elem_get; [|done].
  unfold Dict.wf. rewrite (inv_keys _ _ _ HI). apply (inv_nodup _ _ _ HI).
Qed.

Lemma built_edge_acyclic root c fuel st a b :
  cache_ok cfg c → run cfg fuel root c = Done st → acyclic_from cfg root →
  edge (graph st) a b ↔ reach cfg root a ∧ depends cfg a b.
Proof.
  intros Hc Hrun Hacyc.
  destruct (run_Inv cfg _ _ _ _ Hc Hrun) as (HI & Hpath & Hroot & _).
  assert (Hnone : cycles (log st) = []).
  { apply elem_of_nil_inv. intros q Hq.
    apply (Hacyc q); [|by eapply run_cycles_sound].
    apply (inv_reach _ _ _ HI). by apply (inv_cycles _ _ _ HI). }
  assert (Hget : ∀ p, reach cfg root p → Dict.get (graph st) p = Some (lookup cfg p)).
  { intros p Hp. rewrite (inv_graph _ _ _ HI) by by eapply closed_reach.
    rewrite Hnone, decide_False; [done|]. by intros ?%elem_of_nil. }
  unfold edge, depends. split.
  - intros (deps & Hd & Hin).
    assert (Ha : reach cfg root a).
    { apply (run_keys_reach cfg root c fuel st a Hc Hrun).
      destruct (decide (a ∈ Dict.keys (graph st))) as [|Hn]; [done|].
      apply dict_get_None in Hn. congruence. }
    split; [done|]. rewrite (Hget a Ha) in Hd. by injection Hd as <-.
  - intros [Ha Hin]. exists (lookup cfg a). split; [by apply Hget|done].
Qed.

Lemma built_chain_acyclic root c fuel st :
  cache_ok cfg c → run cfg fuel root c = Done st → acyclic_from cfg root →
  ∀ n k, nsteps (edge (graph st)) n root k ↔ nsteps (depends cfg) n root k.
Proof.
  intros Hc Hrun Hacyc. induction n as [|n IH]; intros k.
  - split; inversion 1; subst; constructor.
  - split; intros (m & Hm & He)%nsteps_inv_r.
    + eapply nsteps_r; [by apply IH|].
      by apply (built_edge_acyclic root c fuel st m k Hc Hrun Hacyc) in He as [_ ?].
    + apply IH in Hm as Hm'. eapply nsteps_r; [exact Hm'|].
      apply (built_edge_acyclic root c fuel st m k Hc Hrun Hacyc).
      split; [|done]. by eapply rtc_nsteps_2.
Qed.

(** X16. When no package the root reaches depends on itself and the
    root is not the empty string, the layering of the returned graph
    gives a level to exactly the packages the root reaches, and the level
    of a package is the length of a shortest chain of dependencies from
    the root to it in the source. *)
Theorem acyclic_levels_are_distances root c fuel st :
  cache_ok cfg c → run cfg fuel root c = Done st →
  acyclic_from cfg root → root ≠ "" →
  ∃ levels,
    compute_levels (graph st) = Some levels
    ∧ (∀ k, reach cfg root k ↔ is_Some (levels !! k))
    ∧ (∀ k L, levels !! k = Some L →
         nsteps (depends cfg) L root k
         ∧ ∀ n, nsteps (depends cfg) n root k → L ≤ n).
Proof.
  intros Hc Hrun Hacyc Hroot.
  destruct (run_first_key cfg root c fuel st Hc Hrun) as [ks Hks].
  assert (Hr : root_of (graph st) = root) by (unfold root_of; by rewrite Hks).
  destruct (compute_levels_total (graph st)) as [levels Hlv].
  destruct (compute_levels_inv (graph st) levels) as [HI HF]; [by rewrite Hr|done|].
  rewrite Hr in HI.
  pose proof (built_chain_acyclic root c fuel st Hc Hrun Hacyc) as Hchain.
  exists levels. split_and!; [done| |].
  - intros k. split.
    + intros [n Hn%Hchain]%rtc_nsteps.
      destruct (chain_level (graph st) _ _ HI HF n k Hn) as (L & HL & _). by exists L.
    + intros [L HL]. apply rtc_nsteps. exists L. apply Hchain.
      by eapply level_chain.
  - intros k L HL. split.
    + apply Hchain. by eapply level_chain.
    + intros n Hn%Hchain.
      destruct (chain_level (graph st) _ _ HI HF n k Hn) as (L' & HL' & Hle).
      congruence.
Qed.

End pipeline_facts.

Section pipeline_witnesses.
Import Source Builder Reverse Diagram Invariants Examples Samples.

Lemma reverse_dependencies_of_built_graph_witness :
  let st := final (run cfg_diamond 5 "A" None) in
  cache_ok cfg_diamond None ∧ run cfg_diamond 5 "A" None = Done st
  ∧ ("B" ∈ find_reverse_dependencies (graph st) "D"
     ↔ reach cfg_diamond "A" "B" ∧ "D" ∈ lookup cfg_diamond "B"
       ∧ "B" ∉ cycles (log st)).
Proof.
  intros st.
  assert (Hc : cache_ok cfg_diamond None) by (by left).
  assert (Hrun : run cfg_diamond 5 "A" None = Done st) by (by vm_compute).
  split_and!; [done..|].
  exact (reverse_dependencies_of_built_graph cfg_diamond "A" None 5 st "D" "B" Hc Hrun).
Defined.

Lemma reverse_of_root_needs_cycle_witness :
  let st := final (run cfg_cycle 3 "A" None) in
  cache_ok cfg_cycle None ∧ run cfg_cycle 3 "A" None = Done st
  ∧ find_reverse_dependencies (graph st) "A" ≠ []
  ∧ tc (depends cfg_cycle) "A" "A".
Proof.
  intros st.
  assert (Hc : cache_ok cfg_cycle None) by (by left).
  assert (Hrun : run cfg_cycle 3 "A" None = Done st) by (by vm_compute).
  assert (Hne : find_reverse_dependencies (graph st) "A" ≠ []) by (by vm_compute).
  split_and!; [done..|].
  exact (reverse_of_root_needs_cycle cfg_cycle "A" None 3 st Hc Hrun Hne).
Defined.

Lemma every_edge_of_built_graph_is_drawn_witness :
  let st := final (run cfg_revisit 3 "R" None) in
  cache_ok cfg_revisit None ∧ run cfg_revisit 3 "R" None = Done st
  ∧ length (arrows (graph st)) = length (concat (graph st).*2).
Proof.
  intros st.
  assert (Hc : cache_ok cfg_revisit None) by (by left).
  assert (Hrun : run cfg_revisit 3 "R" None = Done st) by (by vm_compute).
  split_and!; [done..|].
  exact (every_edge_of_built_graph_is_drawn cfg_revisit "R" None 3 st Hc Hrun).
Defined.

Lemma acyclic_levels_are_distances_witness :
  let st := final (run cfg_diamond 5 "A" None) in
  cache_ok cfg_diamond None ∧ run cfg_diamond 5 "A" None = Done st
  ∧ acyclic_from cfg_diamond "A" ∧ "A" ≠ ""
  ∧ ∃ levels,
      compute_levels (graph st) = Some levels
      ∧ (∀ k, reach cfg_diamond "A" k ↔ is_Some (levels !! k))
      ∧ (∀ k L, levels !! k = Some L →
           nsteps (depends cfg_diamond) L "A" k
           ∧ ∀ n, nsteps (depends cfg_diamond) n "A" k → L ≤ n).
Proof.
  intros st.
  assert (Hc : cache_ok cfg_diamond None) by (by left).
  assert (Hrun : run cfg_diamond 5 "A" None = Done st) by (by vm_compute).
  pose proof diamond_acyclic as Hacyc.
  assert (Hroot : "A" ≠ "") by done.
  split_and!; [done..|].
  exact (acyclic_levels_are_distances cfg_diamond "A" None 5 st Hc Hrun Hacyc Hroot).
Defined.

End pipeline_witnesses.

(** * Further results: the diagram text *)

Section emitter_facts.
Import Text Diagram.

Lemma ident_no_hyphen s : contains "-" (ident s) = false.
Proof.
  induction s as [|c s IH]; simpl; [done|]. rewrite IH, orb_false_r.
  destruct (decide (c = "-"%char)) as [->|Hne]; [done|].
  by apply bool_decide_eq_false_2.
Qed.

Lemma ident_without_hyphen s : contains "-" s = false → ident s = s.
Proof.
  induction s as [|c s IH]; simpl; [done|].
  intros [Hc Hs]%orb_false_iff. rewrite (IH Hs).
  apply bool_decide_eq_false in Hc. by rewrite decide_False.
Qed.

Lemma ident_length s : String.length (ident s) = String.length s.
Proof. induction s as [|c s IH]; simpl; [done|]. by rewrite IH. Qed.

Lemma ident_app a b : ident (a +:+ b) = ident a +:+ ident b.
Proof.
  induction a as [|c a IH]; [done|].
  change (ident (String c (a +:+ b))
          = String (if decide (c = "-"%char) then "_"%char else c) (ident a +:+ ident b)).
  simpl. by rewrite IH.
Qed.

(** X17. The alias the emitter writes for a package has the length of
    the name and no hyphen; a name without a hyphen is its own alias; and
    two names that differ only in having a hyphen where the other has an
    underscore get the same alias. *)
Theorem alias_replaces_hyphens s :
  contains "-" (ident s) = false
  ∧ String.length (ident s) = String.length s
  ∧ (contains "-" s = false → ident s = s)
  ∧ ident (ident s) = ident s
  ∧ ∀ a b, s = a +:+ String "-" b → ident s = ident (a +:+ String "_" b).
Proof.
  split_and!.
  - apply ident_no_hyphen.
  - apply ident_length.
  - apply ident_without_hyphen.
  - apply ident_without_hyphen, ident_no_hyphen.
  - intros a b ->. by rewrite !ident_app.
Qed.

(** X18. For the empty dictionary, and for one whose first key is the
    empty string, the layering assigns no level at all, and the text the
    emitter returns has every key of the graph drawn with the first
    colour of the palette: the header, one rectangle line per key in the
    order of the keys, each ending in that colour, then the empty line,
    the arrows and the closing line. *)
Theorem no_root_no_levels graph :
  root_of graph = "" →
  compute_levels graph = Some ∅
  ∧ (∀ pkg, tier ∅ pkg = 0 ∧ color_of ∅ pkg = Some "#FF6B6B")
  ∧ generate_plantuml graph
    = Some (String.concat ""
              ([header]
               ++ ((λ pkg, String.concat ""
                             ["rectangle "; dquote; pkg; dquote; " as "; ident pkg;
                              " #"; "#FF6B6B"; nl]) <$> Dict.keys graph)
               ++ [nl] ++ arrows graph ++ ["@enduml"])).
Proof.
  intros Hroot.
  assert (Hlv : compute_levels graph = Some ∅)
    by (unfold compute_levels; by rewrite Hroot).
  split_and!; [done| |].
  - intros pkg. unfold color_of, tier. by rewrite lookup_empty.
  - unfold generate_plantuml. rewrite Hlv. simpl.
    assert (Hrects : mapM (rectangle ∅) (Dict.keys graph)
                     = Some ((λ pkg, String.concat ""
                                       ["rectangle "; dquote; pkg; dquote; " as ";
                                        ident pkg; " #"; "#FF6B6B"; nl])
                               <$> Dict.keys graph)).
    { apply mapM_Some_2, Forall2_fmap_r, Forall_Forall2_diag, Forall_forall.
      intros pkg _. unfold rectangle, color_of, tier. by rewrite lookup_empty. }
    by rewrite Hrects.
Qed.

Lemma no_root_no_levels_witness :
  root_of Examples.blank_root = ""
  ∧ generate_plantuml Examples.blank_root
    = Some (String.concat ""
              [header;
               String.concat "" ["rectangle "; dquote; dquote; " as  ##FF6B6B"; nl];
               String.concat "" ["rectangle "; dquote; "a"; dquote; " as a ##FF6B6B"; nl];
               nl;
               String.concat "" [" --> a"; nl];
               "@enduml"]).
Proof.
  assert (Hroot : root_of Examples.blank_root = "") by reflexivity.
  split; [done|].
  destruct (no_root_no_levels Examples.blank_root Hroot) as (_ & _ & Hgen).
  rewrite Hgen. reflexivity.
Defined.

End emitter_facts.

(** * Further results: the configuration and the main flow *)

Section settings_facts.
Import Text Settings.

Lemma dict_get_fmap {A B} (f : A → B) (d : Dict.t A) k :
  Dict.get (prod_map id f <$> d) k = f <$> Dict.get d k.
Proof.
  induction d as [|[k0 v0] d IH]; simpl; [done|].
  by destruct (decide (k0 = k)).
Qed.

Lemma config_get params k :
  k ≠ "test_mode" →
  Dict.get (Dict.set "test_mode" (VBool (test_mode_flag params))
              (prod_map id VStr <$> params)) k
  = VStr <$> Dict.get params k.
Proof. intros Hk. rewrite dict_get_set_ne by done. apply dict_get_fmap. Qed.

(** The parameter that fails the test first, if any. *)
Lemma first_missing_required params :
  first_missing params required
  = match Dict.get params "package_name" with
    | Some (String _ _) =>
        match Dict.get params "repository_url" with
        | Some (String _ _) => None
        | _ => Some "repository_url"
        end
    | _ => Some "package_name"
    end.
Proof.
  unfold required. simpl.
  destruct (Dict.get params "package_name") as [[|c v]|]; simpl; try done.
  by destruct (Dict.get params "repository_url") as [[|c' v']|].
Qed.

Lemma read_config_accepted loaded config :
  read_config loaded = inr config →
  ∃ params pkg repo,
    loaded = Options params
    ∧ Dict.get config "package_name" = Some (VStr pkg) ∧ pkg ≠ ""
    ∧ Dict.get config "repository_url" = Some (VStr repo) ∧ repo ≠ ""
    ∧ Dict.get config "test_mode" = Some (VBool (test_mode_flag params))
    ∧ ∀ k, k ≠ "test_mode" → Dict.get config k = VStr <$> Dict.get params k.
Proof.
  destruct loaded as [| | | | |params]; try done. unfold read_config.
  rewrite first_missing_required.
  destruct (Dict.get params "package_name") as [[|c pkg]|] eqn:Hpkg; try done.
  destruct (Dict.get params "repository_url") as [[|c' repo]|] eqn:Hrepo; try done.
  intros [= <-]. exists params, (String c pkg), (String c' repo).
  split_and!; try done.
  - by rewrite config_get, Hpkg.
  - by rewrite config_get, Hrepo.
  - apply dict_get_set_eq.
  - intros k Hk. by apply config_get.
Qed.

(** X19. When [read_config] returns a dictionary, the section was there
    and the dictionary holds a non-empty package name, a non-empty
    repository address and a boolean test mode, which is true exactly
    when the option is present and its text is the word [true] in any
    letter case. Every other option is passed on unchanged. *)
Theorem read_config_result loaded config :
  read_config loaded = inr config →
  ∃ params pkg repo,
    loaded = Options params
    ∧ Dict.get config "package_name" = Some (VStr pkg) ∧ pkg ≠ ""
    ∧ Dict.get config "repository_url" = Some (VStr repo) ∧ repo ≠ ""
    ∧ Dict.get config "test_mode" = Some (VBool (test_mode_flag params))
    ∧ (test_mode_flag params = true
       ↔ ∃ v, Dict.get params "test_mode" = Some v ∧ lower v = "true")
    ∧ ∀ k, k ≠ "test_mode" → Dict.get config k = VStr <$> Dict.get params k.
Proof.
  destruct loaded as [| | | | |params]; try done. unfold read_config.
  rewrite first_missing_required.
  destruct (Dict.get params "package_name") as [[|c pkg]|] eqn:Hpkg; try done.
  destruct (Dict.get params "repository_url") as [[|c' repo]|] eqn:Hrepo; try done.
  intros [= <-]. exists params, (String c pkg), (String c' repo).
  split_and!; try done.
  - by rewrite config_get, Hpkg.
  - by rewrite config_get, Hrepo.
  - apply dict_get_set_eq.
  - unfold test_mode_flag. destruct (Dict.get params "test_mode") as [v|].
    + rewrite bool_decide_eq_true. split; [by exists v|]. by intros (v' & [= <-] & ?).
    + split; [done|]. by intros (v' & ? & _).
  - intros k Hk. by apply config_get.
Qed.

Lemma read_config_result_witness :
  let params := [("package_name", "zlib"); ("repository_url", "http://r");
                 ("test_mode", "True")] in
  let config := [("package_name", VStr "zlib"); ("repository_url", VStr "http://r");
                 ("test_mode", VBool true)] in
  read_config (Options params) = inr config
  ∧ ∃ params' pkg repo,
      Options params = Options params'
      ∧ Dict.get config "package_name" = Some (VStr pkg) ∧ pkg ≠ ""
      ∧ Dict.get config "repository_url" = Some (VStr repo) ∧ repo ≠ ""
      ∧ Dict.get config "test_mode" = Some (VBool (test_mode_flag params'))
      ∧ (test_mode_flag params' = true
         ↔ ∃ v, Dict.get params' "test_mode" = Some v ∧ lower v = "true")
      ∧ ∀ k, k ≠ "test_mode" → Dict.get config k = VStr <$> Dict.get params' k.
Proof.
  intros params config.
  assert (Hread : read_config (Options params) = inr config) by reflexivity.
  split; [done|]. exact (read_config_result (Options params) config Hread).
Defined.

(** X20. [read_config] returns a dictionary exactly when the options of
    the [settings] section could be read and hold a non-empty package
    name and a non-empty repository address: a missing file, a file that
    cannot be decoded or parsed, a missing section and a value that
    cannot be interpolated are all rejected. A section whose options
    were read is rejected exactly when the package name or the
    repository address is missing or empty; the package name is tested
    first, so it is the one reported when both fail; no other option can
    make these checks fail. *)
Theorem read_config_rejections params :
  (read_config (Options params) = inl (MissingParameter "package_name")
   ↔ Dict.get params "package_name" = None
     ∨ Dict.get params "package_name" = Some "")
  ∧ (read_config (Options params) = inl (MissingParameter "repository_url")
     ↔ (∃ pkg, Dict.get params "package_name" = Some pkg ∧ pkg ≠ "")
       ∧ (Dict.get params "repository_url" = None
          ∨ Dict.get params "repository_url" = Some ""))
  ∧ (∀ e, read_config (Options params) = inl e →
          e = MissingParameter "package_name"
          ∨ e = MissingParameter "repository_url")
  ∧ (∀ loaded,
       (∃ config, read_config loaded = inr config)
       ↔ ∃ options pkg repo,
           loaded = Options options
           ∧ Dict.get options "package_name" = Some pkg ∧ pkg ≠ ""
           ∧ Dict.get options "repository_url" = Some repo ∧ repo ≠ "").
Proof.
  assert (Hacc : ∀ loaded,
    (∃ config, read_config loaded = inr config)
    ↔ ∃ options pkg repo,
        loaded = Options options
        ∧ Dict.get options "package_name" = Some pkg ∧ pkg ≠ ""
        ∧ Dict.get options "repository_url" = Some repo ∧ repo ≠ "").
  { intros loaded. split.
    - intros [config Hread].
      destruct loaded as [| | | | |options]; try done.
      unfold read_config in Hread. rewrite first_missing_required in Hread.
      destruct (Dict.get options "package_name") as [[|c pkg]|] eqn:Hpkg; try done.
      destruct (Dict.get options "repository_url") as [[|c' repo]|] eqn:Hrepo;
        try done.
      by exists options, (String c pkg), (String c' repo).
    - intros (options & pkg & repo & -> & Hpkg & Hp & Hrepo & Hr).
      unfold read_config. rewrite first_missing_required, Hpkg.
      destruct pkg as [|c pkg]; [done|]. rewrite Hrepo.
      destruct repo as [|c' repo]; [done|]. by eexists. }
  split_and!; [| | |exact Hacc];
    unfold read_config; rewrite first_missing_required.
  - destruct (Dict.get params "package_name") as [[|c pkg]|] eqn:Hpkg.
    + naive_solver.
    + destruct (Dict.get params "repository_url") as [[|c' repo]|] eqn:Hrepo;
        (split; [done|]; by intros [|]).
    + naive_solver.
  - destruct (Dict.get params "package_name") as [[|c pkg]|] eqn:Hpkg.
    + split; [done|]. by intros [(p & [= <-] & ?) _].
    + destruct (Dict.get params "repository_url") as [[|c' repo]|] eqn:Hrepo.
      * split; [intros _|done]. split; [by eexists|by right].
      * split; [done|]. by intros [_ [|]].
      * split; [intros _|done]. split; [by eexists|by left].
    + split; [done|]. by intros [(p & ? & ?) _].
  - destruct (Dict.get params "package_name") as [[|c pkg]|] eqn:Hpkg;
      [naive_solver| |naive_solver].
    destruct (Dict.get params "repository_url") as [[|c' repo]|] eqn:Hrepo;
      [naive_solver|done|naive_solver].
Qed.

End settings_facts.

Section main_facts.
Import Text Settings Source Builder Diagram Main.

Lemma generate_plantuml_total graph : is_Some (generate_plantuml graph).
Proof.
  unfold generate_plantuml.
  destruct (compute_levels_total graph) as [levels ->]. simpl.
  assert (Hrects : is_Some (mapM (rectangle levels) (Dict.keys graph))).
  { apply mapM_is_Some, Forall_forall. intros pkg _. simpl.
    unfold rectangle, color_of.
    assert (Hcol : is_Some (colors !! tier levels pkg)).
    { apply lookup_lt_is_Some. unfold tier. simpl. lia. }
    destruct Hcol as [col ->]. by eexists. }
  destruct Hrects as [rects ->]. by eexists.
Qed.

(** The main flow once the configuration is unpacked. *)
Lemma main_accepted loaded env fuel config :
  read_config loaded = inr config →
  ∃ pkg repo flag test_repo,
    Dict.get config "package_name" = Some (VStr pkg) ∧ pkg ≠ ""
    ∧ main loaded env fuel
      = let cfg := source_of env flag repo test_repo in
        match run cfg fuel pkg (fetch_apk_dependencies cfg pkg None).2 with
        | Done st =>
            match generate_plantuml (graph st) with
            | Some text =>
                Exit0 (mkReport (fetch_apk_dependencies cfg pkg None).1 (graph st)
                         (Reverse.find_reverse_dependencies (graph st) pkg) text)
            | None => Exit1
            end
        | _ => Exit1
        end.
Proof.
  intros Hread.
  destruct (read_config_accepted loaded config Hread)
    as (params & pkg & repo & _ & Hpkg & Hne & Hrepo & _ & Hflag & _).
  exists pkg, repo, (test_mode_flag params),
    (match Dict.get config "test_repo_path" with
     | Some (VStr path) => path
     | _ => "test_graph.txt"
     end).
  split_and!; [done..|]. unfold main. rewrite Hread, Hpkg, Hrepo, Hflag.
  cbv zeta. by destruct (fetch_apk_dependencies _ pkg None).
Qed.

(** X21. Once the configuration is accepted nothing in the later stages
    makes the run fail: whatever the environment answers (no file, no
    repository, an unknown package, cycles), with enough depth allowed
    the flow ends with its four results. A rejected configuration ends
    the run at once. *)
Theorem main_fails_only_on_configuration loaded env :
  (∀ e fuel, read_config loaded = inl e → main loaded env fuel = Exit1)
  ∧ (∀ config, read_config loaded = inr config →
       ∃ fuel0, ∀ fuel, fuel0 ≤ fuel → ∃ r, main loaded env fuel = Exit0 r).
Proof.
  split.
  - intros e fuel He. unfold main. by rewrite He.
  - intros config Hread.
    destruct (main_accepted loaded env 0 config Hread)
      as (pkg & repo & flag & test_repo & _ & _ & _).
    destruct (read_config_accepted loaded config Hread)
      as (params & pkg' & repo' & _ & Hpkg & _ & Hrepo & _ & Hflag & _).
    set (test_repo' := match Dict.get config "test_repo_path" with
                       | Some (VStr path) => path
                       | _ => "test_graph.txt"
                       end).
    set (cfg := source_of env (test_mode_flag params) repo' test_repo').
    exists (depth_bound cfg pkg'). intros fuel Hfuel.
    unfold main. rewrite Hread, Hpkg, Hrepo, Hflag. cbv zeta.
    fold test_repo'. fold cfg.
    destruct (fetch_lookup cfg pkg' None) as (c & -> & Hc); [by left|].
    destruct (run_terminates cfg pkg' c fuel Hc Hfuel) as [st ->].
    destruct (generate_plantuml_total (graph st)) as [text ->]. by eexists.
Qed.



End main_facts.

(** * Further results: cycles that go unreported *)

Section completeness_facts.
Import Source Builder Invariants.
Variable cfg : Config.

Lemma Preserves_cycle root p st :
  p ∈ path st → Preserves cfg root p st (mark_cycle p st).
Proof.
  intros Hp _ HI. split_and!; [by apply Inv_mark_cycle|done..|].
  simpl. by apply (inv_path _ _ _ HI).
Qed.

Lemma Preserves_seen root p st :
  p ∈ visited st → Preserves cfg root p st st.
Proof. intros Hv _ HI. done. Qed.

Lemma Preserves_new root p st c st2 :
  p ∉ path st → p ∉ visited st →
  Each (Preserves cfg root) (lookup cfg p) (enter p (lookup cfg p) c st) st2 →
  Preserves cfg root p st (leave p st2).
Proof.
  intros Hp Hv HE Hrp HI.
  apply Each_preserves in HE as (HI2 & Hv2 & Hpath2 & Hdeps).
  - split_and!.
    + by apply Inv_leave.
    + simpl in *. set_solver.
    + simpl in *. rewrite Hpath2. set_solver.
    + simpl in *. set_solver.
  - intros d Hd. eapply rtc_r; [exact Hrp|exact Hd].
  - by apply Inv_enter.
Qed.

Lemma Each_finishes root deps st st' :
  Each (Finishes cfg root) deps st st' →
  (∀ d, d ∈ deps → reach cfg root d) → Inv cfg root st →
  ∀ rank bound, ranked cfg st rank bound →
  (∀ q, q ∈ cycles (log st) → q ∈ cycles (log st'))
  ∧ (∀ d, d ∈ deps → d ∈ visited st' ∧ (d ∉ path st' ∨ d ∈ cycles (log st')))
  ∧ ∃ rank' bound', ranked cfg st' rank' bound'.
Proof.
  induction 1 as [st|d rest st st1 st2 Hd Hrest IH];
    intros Hreach HI rank bound Hrank.
  - split_and!; [done| |by eauto]. by intros d ?%elem_of_nil.
  - destruct Hd as (Hpres & Hmono & Hpath & Hranked).
    assert (Hrd : reach cfg root d) by (apply Hreach; by left).
    destruct (Hpres Hrd HI) as (HI1 & Hv1 & Hp1 & Hd1).
    destruct (Hranked Hrd HI rank bound Hrank) as (rank1 & bound1 & Hrank1).
    destruct (IH (λ d' Hd', Hreach d' ltac:(by right)) HI1 rank1 bound1 Hrank1)
      as (Hmono2 & Hdeps2 & Hranked2).
    assert (Hrest' : Each (Preserves cfg root) rest st1 st2)
      by (eapply Each_mono; [|exact Hrest]; by intros ? ? ? [? _]).
    apply Each_preserves in Hrest' as (_ & Hv2 & Hp2 & _);
      [|intros; apply Hreach; by right|done].
    split_and!; [by auto| |done].
    intros d' [->|Hin]%elem_of_cons; [|by apply Hdeps2].
    split; [set_solver|].
    destruct (decide (d ∈ path st1)) as [Hon|Hoff].
    + right. by apply Hmono2, Hpath.
    + left. by rewrite Hp2.
Qed.

Lemma build_finishes root fuel p st st' :
  cache_ok cfg (cache st) →
  build_dependency_graph cfg fuel p st = Done st' → Finishes cfg root p st st'.
Proof.
  intros Hc Hrun.
  refine (proj1 (build_Done_ind cfg (Finishes cfg root) _ _ _ fuel p st st' Hc Hrun)).
  - intros q s Hq. split_and!.
    + by apply Preserves_cycle.
    + intros r Hr. simpl. rewrite cycles_app. apply elem_of_app. by left.
    + intros _. simpl. rewrite cycles_app. apply elem_of_app. right.
      by apply list_elem_of_singleton.
    + intros _ _ rank bound Hrank. exists rank, bound.
      intros v Hv Hvp. destruct (Hrank v Hv Hvp) as [Hb Hdeps]. split; [done|].
      intros d [Hd|Hd]%Hdeps; [by left|]. right. simpl. rewrite cycles_app.
      apply elem_of_app. by left.
  - intros q s Hq Hv. split_and!; [by apply Preserves_seen|done|done|by eauto].
  - intros q s c s2 Hq Hv HE Hq2.
    assert (HEP : Each (Preserves cfg root) (lookup cfg q)
                    (enter q (lookup cfg q) c s) s2)
      by (eapply Each_mono; [|exact HE]; by intros ? ? ? [? _]).
    pose proof (Preserves_new root q s c s2 Hq Hv HEP) as Hpres.
    split_and!; [done| | |].
    + intros r Hr.
      assert (Hmono : ∀ x, x ∈ cycles (log (enter q (lookup cfg q) c s)) →
                           x ∈ cycles (log s2)).
      { clear -HE. induction HE as [|d rest a b e (_ & Hm & _) _ IH]; [done|].
        intros x Hx. by apply IH, Hm. }
      simpl. apply Hmono. simpl. rewrite cycles_app. apply elem_of_app. by left.
    + intros Hin. simpl in Hin. set_solver.
    + intros Hrq HI rank bound Hrank.
      assert (HI1 : Inv cfg root (enter q (lookup cfg q) c s)) by by apply Inv_enter.
      assert (Hrank1 : ranked cfg (enter q (lookup cfg q) c s) rank bound).
      { intros v Hv1 Hvp1. simpl in *.
        assert (Hvs : v ∈ visited s) by set_solver.
        assert (Hvps : v ∉ path s) by set_solver.
        destruct (Hrank v Hvs Hvps) as [Hb Hdeps]. split; [done|].
        intros d [(Hd1 & Hd2 & Hd3)|Hd]%Hdeps.
        - left. split_and!; [set_solver|set_solver|done].
        - right. rewrite cycles_app. apply elem_of_app. by left. }
      destruct (Each_finishes root _ _ _ HE) with (rank := rank) (bound := bound)
        as (_ & Hdeps & rank2 & bound2 & Hrank2); [|done|done|].
      { intros d Hd. eapply rtc_r; [exact Hrq|exact Hd]. }
      exists (λ v, if decide (v = q) then bound2 else rank2 v), (S bound2).
      intros v Hv2 Hvp2. simpl in *.
      destruct (decide (v = q)) as [->|Hne].
      * split; [lia|]. intros d Hd. destruct (Hdeps d Hd) as [Hdv [Hdp|Hdc]]; [|by right].
        left. assert (d ≠ q) by (intros ->; done).
        split_and!; [done|set_solver|].
        rewrite decide_False by done.
        by destruct (Hrank2 d Hdv Hdp) as [? _].
      * assert (Hvp : v ∉ path s2) by set_solver.
        destruct (Hrank2 v Hv2 Hvp) as [Hb Hd]. split; [lia|].
        intros d [(Hd1 & Hd2 & Hd3)|Hdc]%Hd; [|by right].
        left. assert (d ≠ q) by (intros ->; done).
        split_and!; [done|set_solver|]. by rewrite decide_False.
Qed.

Lemma run_ranked root c fuel st :
  cache_ok cfg c → run cfg fuel root c = Done st →
  ∃ rank, ∀ v d, v ∈ visited st → d ∈ lookup cfg v →
                 (d ∈ visited st ∧ rank d < rank v) ∨ d ∈ cycles (log st).
Proof.
  intros Hc Hrun. destruct (run_Inv cfg _ _ _ _ Hc Hrun) as (HI & Hpath & _).
  destruct (build_finishes root fuel root (fresh c) st Hc Hrun) as (_ & _ & _ & Hr).
  destruct (Hr (rtc_refl _ _) (Inv_fresh cfg root c) (λ _, 0) 0) as (rank & bound & Hrank).
  { intros v Hv. simpl in Hv. set_solver. }
  exists rank. intros v d Hv Hd.
  destruct (Hrank v Hv) as [_ Hdeps]; [rewrite Hpath; set_solver|].
  destruct (Hdeps d Hd) as [(? & _ & ?)|?]; [by left|by right].
Qed.

(** X23. The traversal reports no cycle exactly when no package the
    root reaches depends on itself: a cycle among the dependencies of the
    root never goes unreported, and nothing is reported without one. *)
Theorem no_cycle_report_iff_acyclic root c fuel st :
  cache_ok cfg c → run cfg fuel root c = Done st →
  cycles (log st) = [] ↔ acyclic_from cfg root.
Proof.
  intros Hc Hrun.
  destruct (run_Inv cfg _ _ _ _ Hc Hrun) as (HI & Hpath & Hroot & _). split.
  - intros Hnone. destruct (run_ranked root c fuel st Hc Hrun) as [rank Hrank].
    assert (Hdown : ∀ a b, tc (depends cfg) a b → a ∈ visited st →
                           b ∈ visited st ∧ rank b < rank a).
    { induction 1 as [a b Hab|a b d Hab _ IH]; intros Ha.
      - destruct (Hrank a b Ha Hab) as [?|Hcyc]; [done|].
        rewrite Hnone in Hcyc. by apply elem_of_nil in Hcyc.
      - destruct (Hrank a b Ha Hab) as [[Hb Hlt]|Hcyc].
        + destruct (IH Hb) as [Hd Hlt']. split; [done|lia].
        + rewrite Hnone in Hcyc. by apply elem_of_nil in Hcyc. }
    intros p Hp Hcycle.
    destruct (Hdown p p Hcycle) as [_ Hlt]; [by eapply closed_reach|lia].
  - intros Hacyc. apply elem_of_nil_inv. intros q Hq.
    apply (Hacyc q); [|by eapply run_cycles_sound].
    apply (inv_reach _ _ _ HI). by apply (inv_cycles _ _ _ HI).
Qed.

End completeness_facts.

Section completeness_witnesses.
Import Source Builder Invariants Examples Samples.

Lemma no_cycle_report_iff_acyclic_witness :
  let st := final (run cfg_diamond 5 "A" None) in
  cache_ok cfg_diamond None ∧ run cfg_diamond 5 "A" None = Done st
  ∧ (cycles (log st) = [] ↔ acyclic_from cfg_diamond "A").
Proof.
  intros st.
  assert (Hc : cache_ok cfg_diamond None) by (by left).
  assert (Hrun : run cfg_diamond 5 "A" None = Done st) by (by vm_compute).
  split_and!; [done..|].
  exact (no_cycle_report_iff_acyclic cfg_diamond "A" None 5 st Hc Hrun).
Defined.

End completeness_witnesses.

(** * Further results: reading back what was written in the expected format *)

Section format_facts.
Import Text Regex Runs Source Diagram Invariants.

(** X24. The arrows of the diagram are the edges of the dictionary whose
    target is itself a key, written with the aliases of both ends; an
    edge to a name that is not a key is left out. *)
Theorem arrows_are_edges_between_keys graph line :
  line ∈ arrows graph
  ↔ ∃ pkg deps dep,
      (pkg, deps) ∈ graph ∧ dep ∈ deps ∧ dep ∈ Dict.keys graph
      ∧ line = String.concat "" [ident pkg; " --> "; ident dep; nl].
Proof.
  unfold arrows. rewrite list_elem_of_bind. split.
  - intros ([pkg deps] & Hline & Hin).
    apply list_elem_of_bind in Hline as (dep & Hline & Hdep).
    destruct (Dict.mem graph dep) eqn:Hmem; [|by apply elem_of_nil in Hline].
    apply list_elem_of_singleton in Hline. exists pkg, deps, dep.
    split_and!; [done..| |done]. by apply dict_mem_spec.
  - intros (pkg & deps & dep & Hin & Hdep & Hkey & ->). exists (pkg, deps).
    split; [|done]. apply list_elem_of_bind. exists dep. split; [|done].
    apply dict_mem_spec in Hkey. rewrite Hkey. by apply list_elem_of_singleton.
Qed.

Lemma filter_all {A} (P : A → Prop) `{!∀ x, Decision (P x)} (l : list A) :
  (∀ x, x ∈ l → P x) → filter P l = l.
Proof.
  induction l as [|x l IH]; intros Hall; [done|].
  rewrite filter_cons_True by (apply Hall; by left).
  f_equal. apply IH. intros y Hy. apply Hall. by right.
Qed.

Lemma fmap_id_in {A} (f : A → A) (l : list A) :
  (∀ x, x ∈ l → f x = x) → f <$> l = l.
Proof.
  induction l as [|x l IH]; intros Hall; [done|].
  rewrite fmap_cons, Hall by (by left). f_equal.
  apply IH. intros y Hy. apply Hall. by right.
Qed.

Lemma concat_cons2 sep x y l :
  String.concat sep (x :: y :: l) = x +:+ sep +:+ String.concat sep (y :: l).
Proof. reflexivity. Qed.

(** X25. A dependency line of the index that lists plain names separated
    by single blanks, without qualifiers, is read back as exactly those
    names. *)
Theorem plain_names_are_read_back names :
  Forall (λ n, is_name n = true) names →
  findall (String.concat " " names) = names.
Proof.
  rewrite findall_runs. induction 1 as [|x l Hx Hl IH]; [done|].
  destruct l as [|y l]; [by apply runs_name|].
  rewrite concat_cons2.
  change (x +:+ " " +:+ String.concat " " (y :: l))
    with (x +:+ String " " (String.concat " " (y :: l))).
  rewrite runs_app_sep by done. by rewrite runs_name, IH.
Qed.

Lemma plain_names_are_read_back_witness :
  Forall (λ n, is_name n = true) ["musl"; "zlib"; "busybox-1.x"]
  ∧ findall (String.concat " " ["musl"; "zlib"; "busybox-1.x"])
    = ["musl"; "zlib"; "busybox-1.x"].
Proof.
  assert (H : Forall (λ n, is_name n = true) ["musl"; "zlib"; "busybox-1.x"])
    by (repeat constructor).
  split; [done|]. exact (plain_names_are_read_back _ H).
Defined.

Lemma name_char_facts c :
  is_name_char c = true →
  is_space c = false ∧ c ≠ ":"%char ∧ c ≠ ","%char.
Proof.
  destruct c as [[] [] [] [] [] [] [] []]; vm_compute; intros H;
    try discriminate H; split_and!; try done.
Qed.

Lemma no_space_append a b : no_space (a +:+ b) = no_space a && no_space b.
Proof.
  induction a as [|c a IH]; [done|].
  change (negb (is_space c) && no_space (a +:+ b)
          = negb (is_space c) && no_space a && no_space b).
  by rewrite IH, andb_assoc.
Qed.

Lemma lstrip_no_space s : no_space s = true → lstrip s = s.
Proof.
  destruct s as [|c s]; simpl; [done|].
  intros [Hc _]%andb_true_iff. by destruct (is_space c).
Qed.

Lemma rstrip_no_space s : no_space s = true → rstrip s = s.
Proof.
  induction s as [|c s IH]; simpl; [done|].
  intros [Hc Hs]%andb_true_iff. rewrite (IH Hs).
  destruct s; [|done]. by destruct (is_space c).
Qed.

Lemma strip_no_space s : no_space s = true → strip s = s.
Proof. intros H. unfold strip. by rewrite lstrip_no_space, rstrip_no_space. Qed.

Lemma name_no_space s : all_name s = true → no_space s = true.
Proof.
  induction s as [|c s IH]; simpl; [done|].
  intros [Hc Hs]%andb_true_iff. rewrite (IH Hs), andb_true_r.
  by destruct (name_char_facts c Hc) as [-> _].
Qed.

Lemma name_no_char x s :
  x = ":"%char ∨ x = ","%char → all_name s = true → contains x s = false.
Proof.
  intros Hx. induction s as [|c s IH]; simpl; [done|].
  intros [Hc Hs]%andb_true_iff. rewrite (IH Hs), orb_false_r.
  apply bool_decide_eq_false_2. destruct (name_char_facts c Hc) as (_ & ? & ?).
  by destruct Hx as [->| ->].
Qed.

Lemma split_once_append sep a b :
  contains sep a = false → split_once sep (a +:+ String sep b) = (a, b).
Proof.
  induction a as [|c a IH]; intros Hc.
  - change (split_once sep (String sep b) = ("", b)). simpl. by rewrite decide_True.
  - simpl in Hc. apply orb_false_iff in Hc as [Hne Ha].
    apply bool_decide_eq_false in Hne.
    change (split_once sep (String c (a +:+ String sep b)) = (String c a, b)).
    simpl. rewrite decide_False by done. by rewrite IH.
Qed.

Lemma contains_append sep a b : contains sep (a +:+ String sep b) = true.
Proof.
  induction a as [|c a IH].
  - change (contains sep (String sep b) = true). simpl.
    by rewrite bool_decide_eq_true_2.
  - change (bool_decide (c = sep) || contains sep (a +:+ String sep b) = true).
    rewrite IH. apply orb_true_r.
Qed.

Lemma split_no_sep sep s : contains sep s = false → Text.split sep s = [s].
Proof.
  induction s as [|c s IH]; simpl; [done|].
  intros [Hne Hs]%orb_false_iff. apply bool_decide_eq_false in Hne.
  rewrite decide_False by done. by rewrite (IH Hs).
Qed.

Lemma split_append sep a b :
  contains sep a = false →
  Text.split sep (a +:+ String sep b) = a :: Text.split sep b.
Proof.
  induction a as [|c a IH]; intros Hc.
  - change (Text.split sep (String sep b) = "" :: Text.split sep b).
    simpl. by rewrite decide_True.
  - simpl in Hc. apply orb_false_iff in Hc as [Hne Ha].
    apply bool_decide_eq_false in Hne.
    change (Text.split sep (String c (a +:+ String sep b))
            = String c a :: Text.split sep b).
    simpl. rewrite decide_False by done. by rewrite (IH Ha).
Qed.

Lemma split_join_names deps :
  deps ≠ [] → Forall (λ n, is_name n = true) deps →
  Text.split "," (String.concat "," deps) = deps.
Proof.
  intros Hne Hall. induction Hall as [|x l Hx Hl IH]; [done|].
  unfold is_name in Hx. apply andb_true_iff in Hx as [_ Hx].
  destruct l as [|y l].
  - apply split_no_sep. apply name_no_char; [by right|done].
  - rewrite concat_cons2.
    change (x +:+ "," +:+ String.concat "," (y :: l))
      with (x +:+ String "," (String.concat "," (y :: l))).
    rewrite split_append by (apply name_no_char; [by right|done]).
    by rewrite IH.
Qed.

Lemma no_space_join deps :
  Forall (λ n, is_name n = true) deps → no_space (String.concat "," deps) = true.
Proof.
  induction 1 as [|x l Hx Hl IH]; [done|].
  unfold is_name in Hx. apply andb_true_iff in Hx as [_ Hx].
  destruct l as [|y l]; [by apply name_no_space|].
  rewrite concat_cons2.
  change (x +:+ "," +:+ String.concat "," (y :: l))
    with (x +:+ String "," (String.concat "," (y :: l))).
  rewrite no_space_append, (name_no_space x Hx). simpl. exact IH.
Qed.

Lemma fixture_line_strip pkg deps :
  is_name pkg = true → Forall (λ n, is_name n = true) deps →
  strip (fixture_line pkg deps) = fixture_line pkg deps.
Proof.
  intros [_ Hpkg]%andb_true_iff Hdeps. apply strip_no_space.
  unfold fixture_line. rewrite no_space_append, (name_no_space pkg Hpkg).
  simpl. by apply no_space_join.
Qed.

(** X26. A line of the fixture file written in the format [A:B,C], with
    a package and dependencies that are plain names, is a line about that
    package and gives exactly those dependencies, in order. *)
Theorem fixture_line_is_read_back pkg deps :
  is_name pkg = true → Forall (λ n, is_name n = true) deps →
  line_package (fixture_line pkg deps) = Some pkg
  ∧ line_dependencies (fixture_line pkg deps) = deps
  ∧ get_test_dependencies pkg (Some [fixture_line pkg deps]) = deps.
Proof.
  intros Hpkg Hdeps.
  pose proof (fixture_line_strip pkg deps Hpkg Hdeps) as Hstrip.
  assert (Hcolon : contains ":" pkg = false).
  { apply andb_true_iff in Hpkg as [_ Hpkg]. apply name_no_char; [by left|done]. }
  assert (Hsplit : split_once ":" (fixture_line pkg deps) = (pkg, String.concat "," deps))
    by by apply split_once_append.
  assert (Hpackage : line_package (fixture_line pkg deps) = Some pkg).
  { unfold line_package. rewrite Hstrip, Hsplit.
    unfold fixture_line at 1 2. rewrite contains_append.
    apply andb_true_iff in Hpkg as [Hne _].
    destruct pkg; [done|]. done. }
  assert (Hdependencies : line_dependencies (fixture_line pkg deps) = deps).
  { unfold line_dependencies. rewrite Hstrip, Hsplit. simpl snd.
    destruct deps as [|d deps]; [done|].
    rewrite split_join_names by done.
    assert (Hid : ∀ x, x ∈ d :: deps → strip x = x ∧ nonempty x = true).
    { intros x Hx. rewrite Forall_forall in Hdeps. specialize (Hdeps x Hx).
      apply andb_true_iff in Hdeps as [Hne Hall].
      split; [|done]. by apply strip_no_space, name_no_space. }
    rewrite filter_all by (intros x Hx; destruct (Hid x Hx) as [-> ->]; done).
    apply fmap_id_in. intros x Hx. by destruct (Hid x Hx). }
  split_and!; [done..|].
  rewrite first_matching_line_wins_aux. simpl.
  rewrite decide_True by done. done.
Qed.

Lemma fixture_line_is_read_back_witness :
  is_name "A" = true ∧ Forall (λ n, is_name n = true) ["B"; "lib-c.so"]
  ∧ fixture_line "A" ["B"; "lib-c.so"] = "A:B,lib-c.so"
  ∧ get_test_dependencies "A" (Some ["A:B,lib-c.so"]) = ["B"; "lib-c.so"].
Proof.
  assert (Hp : is_name "A" = true) by reflexivity.
  assert (Hd : Forall (λ n, is_name n = true) ["B"; "lib-c.so"])
    by (repeat constructor).
  split_and!; [done|done|reflexivity|].
  exact (proj2 (proj2 (fixture_line_is_read_back "A" ["B"; "lib-c.so"] Hp Hd))).
Defined.

End format_facts.
